(** * csvkit-next: the CSV engine of [src/index.js], embedded in Rocq

    The JavaScript functions [parseCSV], [stringifyCSV], [filter],
    [transform], [merge], [validate], [stats], [head], [tail], [columns],
    [sort] and [unique] are translated into Rocq functions and the
    properties stated for them are proved or refuted.  [sample] draws on
    [Math.random] and the command-line program works on files and on the
    process; they are not part of the development.

    Modelling conventions

    - A JavaScript string is a sequence of UTF-16 code units: [jsstring]
      is [list char] with [char := N].
    - A JavaScript object used as a record is the ordered list of its own
      properties, [obj V := list (jsstring * V)].  The order is the one
      [Object.keys] observes: array-index names ("0", "7", "2021", ...)
      first, in ascending numeric order, then the other names in the order
      in which they were created.  Inherited properties and the accessor
      [__proto__] of [Object.prototype] are outside the model.
    - A Number is NaN, an infinity or the exact rational value of a finite
      binary64 number; arithmetic rounds the exact result to binary64.
    - A function that can throw returns a [result].
    - What the engine decides ([eval], regular expressions beyond the
      fragments written out here, Unicode case mapping, [Date.parse],
      [localeCompare]) is a parameter of the functions that use it, and
      the theorems hold for every engine. *)

From Stdlib Require Import String Ascii.
From Stdlib Require Import List NArith ZArith Bool Lia Permutation Sorted.
Import ListNotations.

Set Implicit Arguments.

(** ** Strings *)

Definition char := N.
Definition jsstring := list char.

(** The code units of a Rocq string literal. *)
Definition str (s : string) : jsstring :=
  map N_of_ascii (list_ascii_of_string s).

Definition DQUOTE : char := 34%N.
Definition LF : char := 10%N.
Definition CR : char := 13%N.
Definition DOLLAR : char := 36%N.

Definition char_eqb (a b : char) : bool := N.eqb a b.

Fixpoint str_eqb (a b : jsstring) : bool :=
  match a, b with
  | [], [] => true
  | x :: a', y :: b' => char_eqb x y && str_eqb a' b'
  | _, _ => false
  end.

(** [s === ''] *)
Definition is_empty (s : jsstring) : bool :=
  match s with [] => true | _ => false end.

(** [s.startsWith(p)] *)
Fixpoint startsWith (s p : jsstring) : bool :=
  match p, s with
  | [], _ => true
  | x :: p', y :: s' => char_eqb x y && startsWith s' p'
  | _ :: _, [] => false
  end.

(** [s.includes(p)] *)
Fixpoint includes (s p : jsstring) : bool :=
  startsWith s p ||
  match s with
  | [] => false
  | _ :: s' => includes s' p
  end.

(** [parts.join(sep)] *)
Fixpoint join (sep : jsstring) (parts : list jsstring) : jsstring :=
  match parts with
  | [] => []
  | [p] => p
  | p :: ps => p ++ sep ++ join sep ps
  end.

(** ** Objects as ordered property lists *)

Definition obj (V : Type) := list (jsstring * V).

Definition is_digit (c : char) : bool := (48 <=? c)%N && (c <=? 57)%N.

(** The number a string of decimal digits denotes. *)
Definition digits_value (s : jsstring) : N :=
  fold_left (fun acc c => (10 * acc + (c - 48))%N) s 0%N.

(** The decimal digits of a non-negative integer, most significant first. *)
Fixpoint digits_fuel (fuel : nat) (z : Z) (acc : jsstring) : jsstring :=
  let acc' := (48 + Z.to_N (z mod 10))%N :: acc in
  match fuel with
  | O => acc'
  | S fuel' => if (z <? 10)%Z then acc' else digits_fuel fuel' (z / 10)%Z acc'
  end.

Definition decimal_digits (z : Z) : jsstring :=
  digits_fuel (Z.to_nat (Z.log2 z)) z [].

(** [array_index k] is [Some n] when [k] is the canonical decimal numeral of
    an integer [n] with [0 <= n < 2^32 - 1], that is, when printing the
    number read from [k] gives [k] back: the property names that
    [Object.keys] lists first, in ascending order. *)
Definition array_index (k : jsstring) : option N :=
  let n := digits_value k in
  if forallb is_digit k && (n <? 4294967295)%N
     && str_eqb k (decimal_digits (Z.of_N n))
  then Some n
  else None.

Definition obj_keys {V} (o : obj V) : list jsstring := map fst o.

(** [o[k]], [None] standing for [undefined]. *)
Fixpoint obj_get {V} (o : obj V) (k : jsstring) : option V :=
  match o with
  | [] => None
  | (k', v) :: o' => if str_eqb k k' then Some v else obj_get o' k
  end.

Definition has_key {V} (o : obj V) (k : jsstring) : bool :=
  existsb (fun kv => str_eqb k (fst kv)) o.

(** Overwriting an existing property keeps its place. *)
Fixpoint obj_update {V} (o : obj V) (k : jsstring) (v : V) : obj V :=
  match o with
  | [] => []
  | (k', v') :: o' =>
      if str_eqb k k' then (k', v) :: o' else (k', v') :: obj_update o' k v
  end.

(** A new array-index property goes before the first property that is not
    an array index or has a larger index. *)
Fixpoint obj_insert_index {V} (o : obj V) (n : N) (k : jsstring) (v : V) : obj V :=
  match o with
  | [] => [(k, v)]
  | (k', v') :: o' =>
      match array_index k' with
      | Some n' =>
          if (n' <? n)%N then (k', v') :: obj_insert_index o' n k v
          else (k, v) :: o
      | None => (k, v) :: o
      end
  end.

(** [o[k] = v] *)
Definition obj_set {V} (o : obj V) (k : jsstring) (v : V) : obj V :=
  if has_key o k then obj_update o k v
  else match array_index k with
       | Some n => obj_insert_index o n k v
       | None => o ++ [(k, v)]
       end.

(** ** parseCSV *)

Record scanner := Scanner
  { rows : list (list jsstring);
    current : list jsstring;
    field : jsstring;
    inQuotes : bool }.

(** [char === delimiter], for a one-code-unit [char]. *)
Definition is_delimiter (c : char) (delimiter : jsstring) : bool :=
  str_eqb [c] delimiter.

(** [current.length > 0 && current.some(c => c !== '')] *)
Definition not_blank (row : list jsstring) : bool :=
  (0 <? length row)%nat && existsb (fun c => negb (is_empty c)) row.

(** [field += c] *)
Definition add_char (c : char) (st : scanner) : scanner :=
  Scanner (rows st) (current st) (field st ++ [c]) (inQuotes st).

(** [current.push(field); field = ''] *)
Definition end_field (st : scanner) : scanner :=
  Scanner (rows st) (current st ++ [field st]) [] (inQuotes st).

(** [current.push(field); if (...) rows.push(current); current = []; field = ''] *)
Definition end_row (st : scanner) : scanner :=
  let current := current st ++ [field st] in
  Scanner (if not_blank current then rows st ++ [current] else rows st)
          [] [] (inQuotes st).

Definition set_inQuotes (b : bool) (st : scanner) : scanner :=
  Scanner (rows st) (current st) (field st) b.

Definition is_char (c : char) (o : option char) : bool :=
  match o with Some c' => char_eqb c c' | None => false end.

(** The [for] loop of [parseCSV] over the text still to be read; [char] is
    [text[i]] and [next] is [text[i + 1]].  Where the source does [i++]
    the scan continues after [next]. *)
Fixpoint scan (delimiter : jsstring) (text : jsstring) (st : scanner) : scanner :=
  match text with
  | [] => st
  | char :: rest =>
      let next := hd_error rest in
      if inQuotes st then
        if char_eqb char DQUOTE && is_char DQUOTE next then
          match rest with
          | _ :: rest' => scan delimiter rest' (add_char DQUOTE st)
          | [] => st
          end
        else if char_eqb char DQUOTE then
          scan delimiter rest (set_inQuotes false st)
        else
          scan delimiter rest (add_char char st)
      else
        if char_eqb char DQUOTE then
          scan delimiter rest (set_inQuotes true st)
        else if is_delimiter char delimiter then
          scan delimiter rest (end_field st)
        else if char_eqb char LF || (char_eqb char CR && is_char LF next) then
          if char_eqb char CR then
            match rest with
            | _ :: rest' => scan delimiter rest' (end_row st)
            | [] => st
            end
          else scan delimiter rest (end_row st)
        else if negb (char_eqb char CR) then
          scan delimiter rest (add_char char st)
        else
          scan delimiter rest st
  end.

Definition scan_init : scanner := Scanner [] [] [] false.

(** The rows of raw fields: the loop, then the last field and row. *)
Definition tokenize (text delimiter : jsstring) : list (list jsstring) :=
  rows (end_row (scan delimiter text scan_init)).

(** [row[i] || ''] *)
Definition field_or_empty (row : list jsstring) (i : nat) : jsstring :=
  match nth_error row i with
  | Some s => if is_empty s then [] else s
  | None => []
  end.

(** [headers.forEach((h, i) => { obj[h] = row[i] || ''; })] from index [i] on. *)
Fixpoint zip_from (i : nat) (headers row : list jsstring) (o : obj jsstring)
  : obj jsstring :=
  match headers with
  | [] => o
  | h :: hs => zip_from (S i) hs row (obj_set o h (field_or_empty row i))
  end.

Definition toRecord (headers row : list jsstring) : obj jsstring :=
  zip_from 0 headers row [].

Definition toRecords (rows : list (list jsstring)) : list (obj jsstring) :=
  match rows with
  | [] => []
  | headers :: data => map (toRecord headers) data
  end.

Definition parseCSV (text delimiter : jsstring) : list (obj jsstring) :=
  toRecords (tokenize text delimiter).

(** ** stringifyCSV *)

(** The condition under which [escapeField] quotes [str]: it includes the
    delimiter, a quote or a line feed. *)
Definition needs_quotes (delimiter s : jsstring) : bool :=
  includes s delimiter || includes s [DQUOTE] || includes s [LF].

(** Every quote of [str] doubled. *)
Definition double_quotes (s : jsstring) : jsstring :=
  flat_map (fun c => if char_eqb c DQUOTE then [DQUOTE; DQUOTE] else [c]) s.

(** The arrow function [escapeField]; [val] is [None] for [undefined],
    which [val ?? ''] turns into the empty string. *)
Definition escapeField (delimiter : jsstring) (val : option jsstring) : jsstring :=
  let s := match val with Some s => s | None => [] end in
  if needs_quotes delimiter s then [DQUOTE] ++ double_quotes s ++ [DQUOTE]
  else s.


(** ** Numbers

    A Number is NaN, an infinity, or a finite binary64 value, kept as the
    rational it denotes; the two zeros are identified (they compare equal
    and print alike). *)

Inductive number :=
| NaN
| Infinity (negative : bool)
| Finite (num : Z) (den : positive).

(** [num / den] in lowest terms. *)
Definition mk_finite (num den : Z) : number :=
  let g := Z.gcd num den in
  if (g =? 0)%Z then Finite 0 1
  else Finite (num / g) (Z.to_pos (den / g)).

(** [a / b] rounded to the nearest integer, ties to even ([0 <= a], [0 < b]). *)
Definition round_half_even (a b : Z) : Z :=
  let q := (a / b)%Z in
  let r := (a mod b)%Z in
  match (2 * r ?= b)%Z with
  | Lt => q
  | Gt => (q + 1)%Z
  | Eq => if Z.even q then q else (q + 1)%Z
  end.

(** [a / b] multiplied by [base ^ e], as a fraction. *)
Definition scale (base : Z) (a b e : Z) : Z * Z :=
  if (0 <=? e)%Z then (a * base ^ e, b)%Z else (a, b * base ^ (- e))%Z.

(** The binary64 value nearest to [a / b] ([0 < a], [0 < b]), ties to even:
    53 significant bits, least exponent [-1074], overflow to infinity. *)
Definition round_double (negative : bool) (a b : Z) : number :=
  let e0 := (Z.log2 a - Z.log2 b)%Z in
  let '(a0, b0) := scale 2 a b (- e0) in
  let e := if (b0 <=? a0)%Z then e0 else (e0 - 1)%Z in
  let ulp := Z.max (e - 52) (-1074) in
  let '(a1, b1) := scale 2 a b (- ulp) in
  let m := round_half_even a1 b1 in
  let '(n, d) := scale 2 m 1 ulp in
  if (2 ^ 1024 * d <=? n)%Z then Infinity negative
  else mk_finite (if negative then - n else n) d.

Definition is_whitespace (c : char) : bool :=
  existsb (N.eqb c)
          [9; 10; 11; 12; 13; 32; 160; 5760; 8232; 8233; 8239; 8287; 12288; 65279]%N
  || ((8192 <=? c)%N && (c <=? 8202)%N).

Fixpoint trim_start (s : jsstring) : jsstring :=
  match s with
  | c :: s' => if is_whitespace c then trim_start s' else s
  | [] => []
  end.

(** The longest prefix of decimal digits, and what follows it. *)
Fixpoint take_digits (s : jsstring) : jsstring * jsstring :=
  match s with
  | c :: s' =>
      if is_digit c then let '(d, r) := take_digits s' in (c :: d, r) else ([], s)
  | [] => ([], [])
  end.

Definition take_sign (s : jsstring) : bool * jsstring :=
  match s with
  | c :: s' =>
      if char_eqb c 45%N then (true, s')
      else if char_eqb c 43%N then (false, s')
      else (false, s)
  | [] => (false, [])
  end.

(** The exponent part [e], [e+] or [e-] followed by digits, when present,
    and what follows it. *)
Definition take_exponent (s : jsstring) : Z * jsstring :=
  match s with
  | c :: s' =>
      if char_eqb c 101%N || char_eqb c 69%N then
        let '(negative, s'') := take_sign s' in
        let '(d, r) := take_digits s'' in
        if is_empty d then (0%Z, s)
        else if negative then ((- Z.of_N (digits_value d))%Z, r)
             else (Z.of_N (digits_value d), r)
      else (0%Z, s)
  | [] => (0%Z, [])
  end.

(** The Number denoted by the longest prefix of [s] that is a decimal
    literal, leading white space skipped, and the part of [s] left unread;
    NaN when no prefix is a literal. *)
Definition read_float (s : jsstring) : number * jsstring :=
  let '(negative, s0) := take_sign (trim_start s) in
  if startsWith s0 (str "Infinity") then (Infinity negative, skipn 8 s0)
  else
    let '(int_part, s1) := take_digits s0 in
    let '(frac_part, s2) :=
      match s1 with
      | c :: s1' => if char_eqb c 46%N then take_digits s1' else ([], s1)
      | [] => ([], [])
      end in
    if is_empty int_part && is_empty frac_part then (NaN, s)
    else
      let '(exponent, s3) := take_exponent s2 in
      let m := Z.of_N (digits_value (int_part ++ frac_part)) in
      let e := (exponent - Z.of_nat (length frac_part))%Z in
      if (m =? 0)%Z then (Finite 0 1, s3)
      else let '(a, b) := scale 10 m 1 e in (round_double negative a b, s3).

(** [parseFloat(s)] *)
Definition parseFloat (s : jsstring) : number := fst (read_float s).

(** [parseFloat(undefined)] reads the string "undefined". *)
Definition parseFloat_opt (v : option jsstring) : number :=
  match v with
  | Some s => parseFloat s
  | None => NaN
  end.

Definition isNaN (n : number) : bool :=
  match n with NaN => true | _ => false end.

(** [a < b] on Numbers: false whenever an operand is NaN. *)
Definition num_ltb (a b : number) : bool :=
  match a, b with
  | NaN, _ | _, NaN => false
  | Infinity true, Infinity true => false
  | Infinity true, _ => true
  | _, Infinity true => false
  | Infinity false, _ => false
  | _, Infinity false => true
  | Finite n1 d1, Finite n2 d2 => (n1 * Zpos d2 <? n2 * Zpos d1)%Z
  end.

Definition num_eqb (a b : number) : bool :=
  match a, b with
  | NaN, _ | _, NaN => false
  | Infinity s1, Infinity s2 => Bool.eqb s1 s2
  | Finite n1 d1, Finite n2 d2 => (n1 * Zpos d2 =? n2 * Zpos d1)%Z
  | _, _ => false
  end.

Definition num_gtb (a b : number) : bool := num_ltb b a.
Definition num_leb (a b : number) : bool := num_ltb a b || num_eqb a b.
Definition num_geb (a b : number) : bool := num_ltb b a || num_eqb a b.

Definition num_digits (z : Z) : Z := Z.of_nat (length (decimal_digits z)).

(** [n] with [10 ^ (n - 1) <= a / b < 10 ^ n]. *)
Definition decimal_exponent (a b : Z) : Z :=
  let g := (num_digits a - num_digits b)%Z in
  let '(a', b') := scale 10 a b (- g) in
  if (b' <=? a')%Z then (g + 1)%Z else g.

(** The [k]-digit integer [s] nearest to [a / b] in units of [10 ^ (n - k)]
    among those for which [s * 10 ^ (n - k)] still reads back as [a / b];
    [None] when [k] digits are not enough. *)
Definition digits_with (a b n k : Z) : option Z :=
  let '(a', b') := scale 10 a b (k - n) in
  let lo := (a' / b')%Z in
  let r := (a' mod b')%Z in
  let reads_back (s : Z) :=
    let '(p, q) := scale 10 s 1 (n - k) in
    num_eqb (round_double false p q) (mk_finite a b) in
  let lo_ok := reads_back lo in
  let hi_ok := negb (r =? 0)%Z && reads_back (lo + 1)%Z in
  match lo_ok, hi_ok with
  | true, true => Some (round_half_even a' b')
  | true, false => Some lo
  | false, true => Some (lo + 1)%Z
  | false, false => None
  end.

Fixpoint shortest_digits (fuel : nat) (a b n k : Z) : Z * Z :=
  match digits_with a b n k with
  | Some s => (s, k)
  | None =>
      match fuel with
      | O => ((fst (scale 10 a b (k - n)) / snd (scale 10 a b (k - n)))%Z, k)
      | S fuel' => shortest_digits fuel' a b n (k + 1)%Z
      end
  end.

Definition zeros (n : Z) : jsstring := repeat 48%N (Z.to_nat n).

(** [Number::toString] for a positive finite value [a / b]. *)
Definition positive_toString (a b : Z) : jsstring :=
  let n0 := decimal_exponent a b in
  let '(s0, k) := shortest_digits 16 a b n0 1 in
  let '(s, n) := if (s0 =? 10 ^ k)%Z then ((s0 / 10)%Z, (n0 + 1)%Z) else (s0, n0) in
  let digits := decimal_digits s in
  if (k <=? n)%Z && (n <=? 21)%Z then digits ++ zeros (n - k)
  else if (0 <? n)%Z && (n <=? 21)%Z then
    firstn (Z.to_nat n) digits ++ [46%N] ++ skipn (Z.to_nat n) digits
  else if (-6 <? n)%Z && (n <=? 0)%Z then
    [48%N; 46%N] ++ zeros (- n) ++ digits
  else
    let e := (n - 1)%Z in
    let exponent :=
      [101%N] ++ [if (e <? 0)%Z then 45%N else 43%N] ++ decimal_digits (Z.abs e) in
    if (k =? 1)%Z then digits ++ exponent
    else firstn 1 digits ++ [46%N] ++ skipn 1 digits ++ exponent.

(** [String(n)] for a Number. *)
Definition Number_toString (n : number) : jsstring :=
  match n with
  | NaN => str "NaN"
  | Infinity negative => (if negative then [45%N] else []) ++ str "Infinity"
  | Finite num den =>
      if (num =? 0)%Z then str "0"
      else if (num <? 0)%Z then [45%N] ++ positive_toString (- num) (Zpos den)
           else positive_toString num (Zpos den)
  end.

(** ** The JavaScript engine

    [src/index.js] calls three primitives whose full behaviour is the
    engine's: direct [eval], the [RegExp] constructor with its matcher,
    and Unicode case mapping.  What the development needs of them is
    modelled below (literal patterns, patterns with an unclosed group,
    ASCII case mapping); for everything else the functions consult an
    [engine], which every theorem quantifies over.  [eval] is taken to be
    a function of the evaluated text: it neither reads nor changes the
    variables of [transform]. *)

(** The values of the language; an object, array or function is known by
    its reference only. *)
Inductive jsval :=
| JUndefined
| JNull
| JBool (b : bool)
| JNumber (n : number)
| JString (s : jsstring)
| JObject (ref : N).

Record engine := Engine
  { (** [eval(text)]; [None] when it throws. *)
    eval_text : jsstring -> option jsval;
    (** [new RegExp(source, 'i')], then [.test(s)]; [None] when the
        constructor throws a SyntaxError. *)
    regexp_test : jsstring -> option (jsstring -> bool);
    (** [new RegExp(source, 'g')], then [s.replace(re, replacement)]. *)
    regexp_replace : jsstring -> option (jsstring -> jsstring -> jsstring);
    (** [s.toLowerCase()]. *)
    lower_case : jsstring -> jsstring }.

Inductive error :=
| UnknownOperator (operator : jsstring)
| InvalidExpression
| SyntaxError.

Inductive result (A : Type) :=
| Returns (a : A)
| Throws (e : error).

Arguments Throws {A} e.

(** [xs.map(f)] and [xs.filter(f)] for a callback that can throw: the
    callback runs on each element in turn and the first exception ends
    the call. *)
Fixpoint map_result {A B} (f : A -> result B) (xs : list A) : result (list B) :=
  match xs with
  | [] => Returns []
  | x :: xs' =>
      match f x with
      | Throws e => Throws e
      | Returns y =>
          match map_result f xs' with
          | Throws e => Throws e
          | Returns ys => Returns (y :: ys)
          end
      end
  end.

Fixpoint filter_result {A} (f : A -> result bool) (xs : list A) : result (list A) :=
  match xs with
  | [] => Returns []
  | x :: xs' =>
      match f x with
      | Throws e => Throws e
      | Returns keep =>
          match filter_result f xs' with
          | Throws e => Throws e
          | Returns ys => Returns (if keep then x :: ys else ys)
          end
      end
  end.

(** *** Case mapping *)

Definition is_ascii (c : char) : bool := (c <? 128)%N.

Definition to_lower_ascii (c : char) : char :=
  if (65 <=? c)%N && (c <=? 90)%N then (c + 32)%N else c.

Definition to_upper_ascii (c : char) : char :=
  if (97 <=? c)%N && (c <=? 122)%N then (c - 32)%N else c.

Definition toLowerCase (E : engine) (s : jsstring) : jsstring :=
  if forallb is_ascii s then map to_lower_ascii s else lower_case E s.

(** *** Patterns *)

(** [^ $ \ . * + ? ( ) [ ] { } |] *)
Definition is_syntax_char (c : char) : bool :=
  existsb (N.eqb c) [94; 36; 92; 46; 42; 43; 63; 40; 41; 91; 93; 123; 125; 124]%N.

(** No character of the source has a meaning in the pattern language: the
    pattern matches the source itself. *)
Definition literal_pattern (source : jsstring) : bool :=
  forallb (fun c => negb (is_syntax_char c)) source.

(** A [(] that is neither escaped nor inside a class, and no [)] at all:
    the constructor throws a SyntaxError. *)
Definition unclosed_group (source : jsstring) : bool :=
  existsb (N.eqb 40%N) source
  && negb (existsb (fun c => N.eqb c 41%N || N.eqb c 91%N || N.eqb c 92%N) source).

(** Two code units match under the [i] flag; exact when one of them is ASCII. *)
Definition char_eqb_ci (a b : char) : bool :=
  char_eqb (to_upper_ascii a) (to_upper_ascii b).

Fixpoint startsWith_ci (s p : jsstring) : bool :=
  match p, s with
  | [], _ => true
  | x :: p', y :: s' => char_eqb_ci x y && startsWith_ci s' p'
  | _ :: _, [] => false
  end.

Fixpoint includes_ci (s p : jsstring) : bool :=
  startsWith_ci s p ||
  match s with
  | [] => false
  | _ :: s' => includes_ci s' p
  end.

(** [new RegExp(source, 'i')] as the function [s => re.test(s)]. *)
Definition RegExp_i (E : engine) (source : jsstring) : option (jsstring -> bool) :=
  if literal_pattern source && forallb is_ascii source then
    Some (fun s => includes_ci s source)
  else if unclosed_group source then None
  else regexp_test E source.

Definition is_word_char (c : char) : bool :=
  is_digit c || ((65 <=? c)%N && (c <=? 90)%N) || ((97 <=? c)%N && (c <=? 122)%N)
  || char_eqb c 95%N.

Definition is_word (o : option char) : bool :=
  match o with Some c => is_word_char c | None => false end.

(** The assertion [\b] between the code units [prev] and [next]. *)
Definition word_boundary (prev next : option char) : bool :=
  xorb (is_word prev) (is_word next).

(** The replacement text of one match: [$$], [$&], [$`] and [$'] are
    expanded; without capture groups every other [$] stands for itself. *)
Fixpoint GetSubstitution (matched before after template : jsstring) : jsstring :=
  match template with
  | [] => []
  | c :: t =>
      if char_eqb c DOLLAR then
        match t with
        | c2 :: t' =>
            if char_eqb c2 DOLLAR then DOLLAR :: GetSubstitution matched before after t'
            else if char_eqb c2 38%N then matched ++ GetSubstitution matched before after t'
            else if char_eqb c2 96%N then before ++ GetSubstitution matched before after t'
            else if char_eqb c2 39%N then after ++ GetSubstitution matched before after t'
            else DOLLAR :: GetSubstitution matched before after t
        | [] => [DOLLAR]
        end
      else c :: GetSubstitution matched before after t
  end.

(** [\bcol\b] matches at the current position: [before] has been read,
    [rest] is still to be read. *)
Definition word_match (col before rest : jsstring) : bool :=
  word_boundary (last (map Some before) None) (hd_error rest)
  && startsWith rest col
  && word_boundary (last (map Some (before ++ col)) None)
                   (hd_error (skipn (length col) rest)).

(** [subject.replace(/\bcol\b/g, template)] for a literal [col]: the
    matches are found from left to right and do not overlap; [skip]
    counts the code units of the current match still to be passed over. *)
Fixpoint replace_from (col template before rest : jsstring) (skip : nat) : jsstring :=
  match skip with
  | S skip' =>
      match rest with
      | c :: rest' => replace_from col template (before ++ [c]) rest' skip'
      | [] => []
      end
  | O =>
      if word_match col before rest then
        GetSubstitution col before (skipn (length col) rest) template
        ++ match rest with
           | c :: rest' =>
               match col with
               | [] => c :: replace_from col template (before ++ [c]) rest' 0
               | _ :: col' => replace_from col template (before ++ [c]) rest' (length col')
               end
           | [] => []
           end
      else
        match rest with
        | c :: rest' => c :: replace_from col template (before ++ [c]) rest' 0
        | [] => []
        end
  end.

(** [new RegExp(`\\b${col}\\b`, 'g')] as the function
    [(s, replacement) => s.replace(re, replacement)]. *)
Definition RegExp_word_g (E : engine) (col : jsstring)
  : option (jsstring -> jsstring -> jsstring) :=
  if literal_pattern col then
    Some (fun subject template => replace_from col template [] subject 0)
  else if unclosed_group col then None
  else regexp_replace E (str "\b" ++ col ++ str "\b").

(** ** filter *)

(** [String(a)] for a field read from a record. *)
Definition String_of (a : option jsstring) : jsstring :=
  match a with
  | Some s => s
  | None => str "undefined"
  end.

(** [a === b] where [b] is a string. *)
Definition strict_eq (a : option jsstring) (b : jsstring) : bool :=
  match a with
  | Some s => str_eqb s b
  | None => false
  end.

(** [s.endsWith(p)] *)
Definition endsWith (s p : jsstring) : bool := startsWith (rev s) (rev p).

(** The table [ops]: the function stored under [name], applied to [a] and
    [b], or [None] when [ops[name]] is [undefined]. *)
Definition ops (E : engine) (name : jsstring)
  : option (option jsstring -> jsstring -> result bool) :=
  if str_eqb name (str "eq") then Some (fun a b => Returns (strict_eq a b))
  else if str_eqb name (str "ne") then Some (fun a b => Returns (negb (strict_eq a b)))
  else if str_eqb name (str "gt") then
    Some (fun a b => Returns (num_gtb (parseFloat_opt a) (parseFloat b)))
  else if str_eqb name (str "lt") then
    Some (fun a b => Returns (num_ltb (parseFloat_opt a) (parseFloat b)))
  else if str_eqb name (str "gte") then
    Some (fun a b => Returns (num_geb (parseFloat_opt a) (parseFloat b)))
  else if str_eqb name (str "lte") then
    Some (fun a b => Returns (num_leb (parseFloat_opt a) (parseFloat b)))
  else if str_eqb name (str "contains") then
    Some (fun a b => Returns (includes (toLowerCase E (String_of a)) (toLowerCase E b)))
  else if str_eqb name (str "startswith") then
    Some (fun a b => Returns (startsWith (toLowerCase E (String_of a)) (toLowerCase E b)))
  else if str_eqb name (str "endswith") then
    Some (fun a b => Returns (endsWith (toLowerCase E (String_of a)) (toLowerCase E b)))
  else if str_eqb name (str "regex") then
    Some (fun a b =>
            match RegExp_i E b with
            | Some test => Returns (test (String_of a))
            | None => Throws SyntaxError
            end)
  else if str_eqb name (str "empty") then
    Some (fun a _ => Returns (match a with Some s => is_empty s | None => true end))
  else if str_eqb name (str "notempty") then
    Some (fun a _ => Returns (match a with Some s => negb (is_empty s) | None => false end))
  else None.

Definition filter (E : engine) (data : list (obj jsstring))
           (column operator value : jsstring) : result (list (obj jsstring)) :=
  match ops E (toLowerCase E operator) with
  | None => Throws (UnknownOperator operator)
  | Some op => filter_result (fun row => op (obj_get row column) value) data
  end.

(** ** transform *)

Definition is_line_terminator (c : char) : bool :=
  existsb (N.eqb c) [10; 13; 8232; 8233]%N.

(** [(.+)$]: the rest of the input, which must be non-empty and free of
    line terminators. *)
Definition match_rest (r : jsstring) : option jsstring :=
  if negb (is_empty r) && forallb (fun c => negb (is_line_terminator c)) r
  then Some r else None.

(** [\s*(.+)$], the star greedy. *)
Fixpoint match_body (r : jsstring) : option jsstring :=
  match r with
  | c :: r' =>
      if is_whitespace c then
        match match_body r' with
        | Some body => Some body
        | None => match_rest r
        end
      else match_rest r
  | [] => None
  end.

(** [\s*=\s*(.+)$] *)
Fixpoint match_equals (r : jsstring) : option jsstring :=
  match r with
  | c :: r' =>
      let here := if char_eqb c 61%N then match_body r' else None in
      if is_whitespace c then
        match match_equals r' with
        | Some body => Some body
        | None => here
        end
      else here
  | [] => None
  end.

(** [(\w+)\s*=\s*(.+)$] with [name] already read into the first group. *)
Fixpoint match_name (name r : jsstring) : option (jsstring * jsstring) :=
  match r with
  | c :: r' =>
      if is_word_char c then
        match match_name (name ++ [c]) r' with
        | Some groups => Some groups
        | None =>
            match match_equals r' with
            | Some body => Some (name ++ [c], body)
            | None => None
            end
        end
      else None
  | [] => None
  end.

(** [expression.match(/^(\w+)\s*=\s*(.+)$/)]: the two groups. *)
Definition match_expression (expression : jsstring) : option (jsstring * jsstring) :=
  match_name [] expression.

Inductive literal :=
| NumericLiteral (numVal : number)
| QuotedLiteral (val : jsstring).

(** [isNaN(numVal) ? `"${val}"` : numVal] *)
Definition replacement (val : jsstring) : literal :=
  let numVal := parseFloat val in
  if isNaN numVal then QuotedLiteral val else NumericLiteral numVal.

(** The replacement as [replace] reads it, converted to a string. *)
Definition literal_text (l : literal) : jsstring :=
  match l with
  | NumericLiteral numVal => Number_toString numVal
  | QuotedLiteral val => [DQUOTE] ++ val ++ [DQUOTE]
  end.

(** One step of the [forEach]: the references to [col] in [evalExpr] are
    replaced. *)
Definition substitute (E : engine) (col val evalExpr : jsstring) : result jsstring :=
  match RegExp_word_g E col with
  | None => Throws SyntaxError
  | Some replace => Returns (replace evalExpr (literal_text (replacement val)))
  end.

(** [Object.keys(row).forEach(col => ...)] *)
Fixpoint substitute_all (E : engine) (row : obj jsstring) (evalExpr : jsstring)
  : result jsstring :=
  match row with
  | [] => Returns evalExpr
  | (col, val) :: row' =>
      match substitute E col val evalExpr with
      | Throws e => Throws e
      | Returns evalExpr' => substitute_all E row' evalExpr'
      end
  end.

(** [{ ...row }]: the properties of [row] are defined, in order, on a new
    object. *)
Definition spread (row : obj jsstring) : obj jsval :=
  fold_left (fun o kv => obj_set o (fst kv) (JString (snd kv))) row [].

(** The value that [try { newRow[newCol] = eval(evalExpr); } catch (e)
    { newRow[newCol] = ''; }] stores. *)
Definition eval_or_empty (E : engine) (evalExpr : jsstring) : jsval :=
  match eval_text E evalExpr with
  | Some v => v
  | None => JString []
  end.

(** The callback of [data.map]. *)
Definition transform_row (E : engine) (newCol expr : jsstring) (row : obj jsstring)
  : result (obj jsval) :=
  let newRow := spread row in
  match substitute_all E row expr with
  | Throws e => Throws e
  | Returns evalExpr => Returns (obj_set newRow newCol (eval_or_empty E evalExpr))
  end.

Definition transform (E : engine) (data : list (obj jsstring)) (expression : jsstring)
  : result (list (obj jsval)) :=
  match match_expression expression with
  | None => Throws InvalidExpression
  | Some (newCol, expr) => map_result (transform_row E newCol expr) data
  end.

(** ** head and tail *)

(** [xs.slice(start)] and [xs.slice(start, end)] for integers: a negative
    index counts from the end, and both are clamped to the array. *)
Definition slice_index {A} (xs : list A) (i : Z) : nat :=
  let len := Z.of_nat (length xs) in
  Z.to_nat (if (i <? 0)%Z then Z.max (len + i) 0 else Z.min i len).

Definition slice {A} (xs : list A) (start : Z) (stop : option Z) : list A :=
  let from := slice_index xs start in
  let to := match stop with
            | Some e => slice_index xs e
            | None => length xs
            end in
  firstn (to - from) (skipn from xs).

Definition head {A} (data : list A) (n : Z) : list A := slice data 0 (Some n).

Definition tail {A} (data : list A) (n : Z) : list A := slice data (- n) None.

(** ** Notions used in the statements *)






(** Both operands parse as Numbers and the comparison holds between them. *)
Definition both_parse_and (cmp : number -> number -> bool)
           (a : option jsstring) (b : jsstring) : bool :=
  negb (isNaN (parseFloat_opt a)) && negb (isNaN (parseFloat b))
  && cmp (parseFloat_opt a) (parseFloat b).

(** An engine whose [eval] understands decimal literals only and whose
    [RegExp] accepts no pattern beyond the modelled ones; it serves to run
    the functions on concrete inputs. *)
Definition literal_engine : engine :=
  Engine (fun text => match read_float text with
                      | (NaN, _) => None
                      | (n, []) => Some (JNumber n)
                      | (_, _ :: _) => None
                      end)
         (fun _ => None) (fun _ => None) (fun s => s).


(** No [$] in [s]: as a replacement text, [s] stands for itself. *)
Definition no_dollar (s : jsstring) : bool :=
  forallb (fun c => negb (char_eqb c DOLLAR)) s.

(** A line of fields as [stringifyCSV] writes it. *)
Definition serialize_row (delimiter : jsstring) (fields : list jsstring) : jsstring :=
  join delimiter (map (fun f => escapeField delimiter (Some f)) fields).

(** A carriage return in [s] is protected by quotes when [s] is written. *)
Definition cr_safe (delimiter s : jsstring) : bool :=
  needs_quotes delimiter s || negb (existsb (char_eqb CR) s).


(** A delimiter that [parseCSV] can tell from the quote and the line end. *)
Definition plain_delimiter (d : char) : bool :=
  negb (char_eqb d DQUOTE) && negb (char_eqb d LF) && negb (char_eqb d CR).

(** The whole of [s], leading white space apart, is one decimal literal. *)
Definition parses_fully (s : jsstring) : bool :=
  negb (isNaN (parseFloat s)) && is_empty (snd (read_float s)).

(** The words of an expression: its maximal runs of word characters, each
    other code unit being a token of its own; [word] is the run being read. *)
Fixpoint word_tokens_from (word e : jsstring) : list jsstring :=
  match e with
  | [] => if is_empty word then [] else [word]
  | c :: e' =>
      if is_word_char c then word_tokens_from (word ++ [c]) e'
      else (if is_empty word then [] else [word]) ++ [[c]] ++ word_tokens_from [] e'
  end.

Definition word_tokens (e : jsstring) : list jsstring := word_tokens_from [] e.

(** Every token equal to [col] replaced by [text]. *)
Definition replace_tokens (col text e : jsstring) : jsstring :=
  flat_map (fun t => if str_eqb t col then text else t) (word_tokens e).

(** The text that stands for the token [t] of an expression once the
    references to the columns of [row] are replaced. *)
Definition substituted_token (row : obj jsstring) (t : jsstring) : jsstring :=
  match obj_get row t with
  | Some val => literal_text (replacement val)
  | None => t
  end.

(** No replacement text brings in a reference to a column whose turn is
    still to come. *)
Fixpoint independent (row : obj jsstring) : bool :=
  match row with
  | [] => true
  | (_, val) :: row' =>
      forallb (fun t => negb (has_key row' t))
              (word_tokens (literal_text (replacement val)))
      && independent row'
  end.

(** A column that [transform] can refer to by name: the name is a word
    and the value holds no [$]. *)
Definition plain_column (kv : jsstring * jsstring) : bool :=
  negb (is_empty (fst kv)) && forallb is_word_char (fst kv) && no_dollar (snd kv).

(** [field += s], one code unit after the other. *)
Definition add_chars (s : jsstring) (st : scanner) : scanner :=
  Scanner (rows st) (current st) (field st ++ s) (inQuotes st).

(** ** columns, merge and unique *)

(** [[...new Set(xs)]]: the elements of [xs] without repetition, in the
    order in which they first appear; [seen] is the set so far. *)
Definition set_add {A} (eqb : A -> A -> bool) (seen : list A) (x : A) : list A :=
  if existsb (eqb x) seen then seen else seen ++ [x].

Definition distinct {A} (eqb : A -> A -> bool) (xs : list A) : list A :=
  fold_left (set_add eqb) xs [].

(** [data.length > 0 ? Object.keys(data[0]) : []], which is also
    [Object.keys(data[0] || {})]. *)
Definition columns {V} (data : list (obj V)) : list jsstring :=
  match data with
  | [] => []
  | first :: _ => obj_keys first
  end.




(** Equality of two values read from records, as a [Set] sees it. *)
Definition value_eqb (a b : option jsstring) : bool :=
  match a, b with
  | Some x, Some y => str_eqb x y
  | None, None => true
  | _, _ => false
  end.

(** [unique]: the result holds [None] for [undefined]. *)
Definition unique (data : list (obj jsstring)) (column : jsstring)
  : list (option jsstring) :=
  let values := distinct value_eqb (map (fun r => obj_get r column) data) in
  List.filter (fun v => negb (strict_eq v [])) values.




(** ** Further notions used in the statements *)



(** The shape [name ws1 = ws2 body] of an expression: a non-empty word, an
    equals sign with white space around it, and a non-empty body on one
    line. *)
Definition expression_parts (expression name ws1 ws2 body : jsstring) : Prop :=
  expression = name ++ ws1 ++ [61%N] ++ ws2 ++ body
  /\ name <> [] /\ forallb is_word_char name = true
  /\ forallb is_whitespace ws1 = true /\ forallb is_whitespace ws2 = true
  /\ body <> [] /\ forallb (fun c => negb (is_line_terminator c)) body = true.

(** The scanner state with the rows [done] emitted before its own. *)
Definition prepend_rows (done : list (list jsstring)) (st : scanner) : scanner :=
  Scanner (done ++ rows st) (current st) (field st) (inQuotes st).


(** ** validate *)






(** The class [[^\s@]]. *)
Definition email_char (c : char) : bool :=
  negb (is_whitespace c) && negb (char_eqb c 64%N).

(** [[^\s@]+$] *)
Definition match_domain_end (r : jsstring) : bool :=
  negb (is_empty r) && forallb email_char r.

(** [[^\s@]+\.[^\s@]+$]; [read] tells that the first class has read a
    code unit already. *)
Fixpoint match_domain (read : bool) (r : jsstring) : bool :=
  match r with
  | c :: r' =>
      (email_char c && match_domain true r')
      || (read && char_eqb c 46%N && match_domain_end r')
  | [] => false
  end.

(** [[^\s@]+@[^\s@]+\.[^\s@]+$] *)
Fixpoint match_local (read : bool) (r : jsstring) : bool :=
  match r with
  | c :: r' =>
      (email_char c && match_local true r')
      || (read && char_eqb c 64%N && match_domain false r')
  | [] => false
  end.

(** [val.match(/^[^\s@]+@[^\s@]+\.[^\s@]+$/)] is not [null]. *)
Definition match_email (val : jsstring) : bool := match_local false val.








(** ** sort *)

(** The sign of [numA - numB] for two Numbers that are not NaN, which is
    all that [sort] reads of the comparator's result: the difference of
    two binary64 values is zero only when they are equal and has the sign
    of the exact difference otherwise; [Infinity - Infinity] is NaN, which
    [sort] reads as zero. *)
Definition sub_sign (numA numB : number) : comparison :=
  if num_ltb numA numB then Lt
  else if num_ltb numB numA then Gt
  else Eq.

(** The comparator of [sort]; [localeCompare] is the engine's
    [String.prototype.localeCompare], of which the sign is kept. *)
Definition compare_rows (localeCompare : jsstring -> jsstring -> comparison)
           (column : jsstring) (descending : bool) (a b : obj jsstring) : comparison :=
  let valA := obj_get a column in
  let valB := obj_get b column in
  let numA := parseFloat_opt valA in
  let numB := parseFloat_opt valB in
  let cmp :=
    if negb (isNaN numA) && negb (isNaN numB) then sub_sign numA numB
    else localeCompare (String_of valA) (String_of valB) in
  if descending then CompOpp cmp else cmp.

(** [x] put into the sorted [xs], before the first element that does not
    come before it. *)
Fixpoint sorted_insert {A} (comparefn : A -> A -> comparison) (x : A) (xs : list A)
  : list A :=
  match xs with
  | [] => [x]
  | y :: xs' =>
      match comparefn x y with
      | Gt => y :: sorted_insert comparefn x xs'
      | _ => x :: xs
      end
  end.

(** [xs.sort(comparefn)] for a comparator that is consistent on [xs].
    The sort is stable, so the result is determined: the arrangement of
    [xs] in ascending order in which the elements that compare equal keep
    their order; it is computed here by insertion.  With a comparator
    that is not consistent the order is implementation-defined, and this
    function does not tell it. *)
Definition Array_sort {A} (comparefn : A -> A -> comparison) (xs : list A) : list A :=
  fold_right (sorted_insert comparefn) [] xs.

Definition sort (localeCompare : jsstring -> jsstring -> comparison)
           (data : list (obj jsstring)) (column : jsstring) (descending : bool)
  : list (obj jsstring) :=
  Array_sort (compare_rows localeCompare column descending) data.

(** ** stats *)

(** The binary64 value nearest to [num / den]. *)
Definition num_round (num den : Z) : number :=
  if (num =? 0)%Z then Finite 0 1
  else round_double (num <? 0)%Z (Z.abs num) den.

(** [a + b] on Numbers. *)
Definition num_add (a b : number) : number :=
  match a, b with
  | NaN, _ | _, NaN => NaN
  | Infinity s1, Infinity s2 => if Bool.eqb s1 s2 then Infinity s1 else NaN
  | Infinity s, Finite _ _ | Finite _ _, Infinity s => Infinity s
  | Finite n1 d1, Finite n2 d2 =>
      num_round (n1 * Zpos d2 + n2 * Zpos d1) (Zpos d1 * Zpos d2)
  end.

(** [a * b] on Numbers. *)
Definition num_mul (a b : number) : number :=
  match a, b with
  | NaN, _ | _, NaN => NaN
  | Infinity s1, Infinity s2 => Infinity (xorb s1 s2)
  | Infinity s, Finite n _ | Finite n _, Infinity s =>
      if (n =? 0)%Z then NaN else Infinity (xorb s (n <? 0)%Z)
  | Finite n1 d1, Finite n2 d2 => num_round (n1 * n2) (Zpos d1 * Zpos d2)
  end.

(** [a / b] on Numbers; a zero divisor is read as [+0], which is what an
    array length is. *)
Definition num_div (a b : number) : number :=
  match a, b with
  | NaN, _ | _, NaN => NaN
  | Infinity _, Infinity _ => NaN
  | Infinity s, Finite n _ => Infinity (xorb s (n <? 0)%Z)
  | Finite _ _, Infinity _ => Finite 0 1
  | Finite n1 d1, Finite n2 d2 =>
      if (n2 =? 0)%Z then
        if (n1 =? 0)%Z then NaN else Infinity (n1 <? 0)%Z
      else num_round (n1 * Zpos d2 * Z.sgn n2) (Zpos d1 * Z.abs n2)
  end.

(** An array length as a Number. *)
Definition num_of_nat (n : nat) : number := Finite (Z.of_nat n) 1.

(** The literal [0.8]: the binary64 value nearest to 8/10. *)
Definition point_eight : number := round_double false 8 10.

(** [Math.min(...xs)] and [Math.max(...xs)]; the limit that an engine
    puts on the number of arguments of a call is outside the model. *)
Definition Math_min (xs : list number) : number :=
  if existsb isNaN xs then NaN
  else fold_left (fun m x => if num_ltb x m then x else m) xs (Infinity false).

Definition Math_max (xs : list number) : number :=
  if existsb isNaN xs then NaN
  else fold_left (fun m x => if num_ltb m x then x else m) xs (Infinity true).

(** An entry of [columnStats]; [min], [max] and [avg] are set for a
    numeric column only. *)
Record column_stats := ColumnStats
  { stat_type : jsstring;
    stat_nonEmpty : nat;
    stat_unique : nat;
    stat_min : option number;
    stat_max : option number;
    stat_avg : option number }.

(** The object that [stats] returns. *)
Record stats_result := Stats
  { stats_rows : nat;
    stats_columns : list jsstring;
    columnStats : obj column_stats }.

(** [v !== '' && v !== null && v !== undefined] *)
Definition is_filled (v : option jsstring) : bool :=
  match v with
  | Some s => negb (is_empty s)
  | None => false
  end.

(** [nonEmpty.map(v => parseFloat(v)).filter(n => !isNaN(n))] *)
Definition numbers_of (nonEmpty : list (option jsstring)) : list number :=
  List.filter (fun n => negb (isNaN n)) (map parseFloat_opt nonEmpty).

(** The body of [headers.forEach] in [stats]: the entry for [col]. *)
Definition stats_of_column (data : list (obj jsstring)) (col : jsstring) : column_stats :=
  let values := map (fun r => obj_get r col) data in
  let nonEmpty := List.filter is_filled values in
  let unique := distinct value_eqb nonEmpty in
  let numbers := numbers_of nonEmpty in
  let isNumeric :=
    num_gtb (num_of_nat (length numbers))
            (num_mul (num_of_nat (length nonEmpty)) point_eight) in
  let has_numbers := isNumeric && (0 <? length numbers)%nat in
  ColumnStats (if isNumeric then str "number" else str "string")
              (length nonEmpty)
              (length unique)
              (if has_numbers then Some (Math_min numbers) else None)
              (if has_numbers then Some (Math_max numbers) else None)
              (if has_numbers
               then Some (num_div (fold_left num_add numbers (Finite 0 1))
                                  (num_of_nat (length numbers)))
               else None).

Definition stats (data : list (obj jsstring)) : stats_result :=
  match data with
  | [] => Stats 0 [] []
  | first :: _ =>
      let headers := obj_keys first in
      Stats (length data) headers
            (fold_left (fun o col => obj_set o col (stats_of_column data col)) headers [])
  end.

(** ** Strings and objects: basic facts *)

Lemma char_eqb_eq (a b : char) : char_eqb a b = true <-> a = b.
Proof. apply N.eqb_eq. Qed.

Lemma char_eqb_neq (a b : char) : char_eqb a b = false <-> a <> b.
Proof. apply N.eqb_neq. Qed.

Lemma char_eqb_refl (a : char) : char_eqb a a = true.
Proof. apply N.eqb_refl. Qed.

Lemma str_eqb_eq (a b : jsstring) : str_eqb a b = true <-> a = b.
Proof.
  revert b; induction a as [|x a IH]; intros [|y b]; simpl; split; intro H;
    try reflexivity; try discriminate.
  - apply andb_true_iff in H as [Hx Ha].
    apply char_eqb_eq in Hx. apply IH in Ha. congruence.
  - injection H as -> ->. rewrite char_eqb_refl. simpl. now apply IH.
Qed.

Lemma str_eqb_refl (a : jsstring) : str_eqb a a = true.
Proof. now apply str_eqb_eq. Qed.

Lemma str_eqb_neq (a b : jsstring) : str_eqb a b = false <-> a <> b.
Proof.
  split; intro H.
  - intro Heq. apply str_eqb_eq in Heq. congruence.
  - destruct (str_eqb a b) eqn:E; [|reflexivity].
    apply str_eqb_eq in E. contradiction.
Qed.

Lemma str_eqb_sym (a b : jsstring) : str_eqb a b = str_eqb b a.
Proof.
  destruct (str_eqb a b) eqn:E1, (str_eqb b a) eqn:E2; try reflexivity.
  - apply str_eqb_eq in E1. subst. now rewrite str_eqb_refl in E2.
  - apply str_eqb_eq in E2. subst. now rewrite str_eqb_refl in E1.
Qed.



Lemma obj_get_update {V} (o : obj V) (k k' : jsstring) (v : V) :
  has_key o k = true ->
  obj_get (obj_update o k v) k' = if str_eqb k' k then Some v else obj_get o k'.
Proof.
  induction o as [|[k0 v0] o IH]; simpl; [discriminate|].
  intros H. destruct (str_eqb k k0) eqn:E.
  - apply str_eqb_eq in E. subst k0. simpl. now destruct (str_eqb k' k).
  - simpl in H. simpl. specialize (IH H).
    destruct (str_eqb k' k0) eqn:E0.
    + apply str_eqb_eq in E0. subst k0. now rewrite str_eqb_sym, E.
    + exact IH.
Qed.


Lemma obj_get_app {V} (o1 o2 : obj V) (k : jsstring) :
  obj_get (o1 ++ o2) k =
  match obj_get o1 k with Some v => Some v | None => obj_get o2 k end.
Proof.
  induction o1 as [|[k0 v0] o1 IH]; simpl; [reflexivity|].
  now destruct (str_eqb k k0).
Qed.

Lemma obj_get_None {V} (o : obj V) (k : jsstring) :
  obj_get o k = None <-> has_key o k = false.
Proof.
  induction o as [|[k0 v0] o IH]; simpl; [tauto|].
  destruct (str_eqb k k0); simpl; [split; discriminate | exact IH].
Qed.

Lemma obj_get_insert_index {V} (o : obj V) (n : N) (k k' : jsstring) (v : V) :
  has_key o k = false ->
  obj_get (obj_insert_index o n k v) k' = if str_eqb k' k then Some v else obj_get o k'.
Proof.
  induction o as [|[k0 v0] o IH]; simpl; intros H.
  - now destruct (str_eqb k' k).
  - apply orb_false_iff in H as [Hk0 H]. specialize (IH H).
    assert (Hstep : obj_get ((k, v) :: (k0, v0) :: o) k'
                    = if str_eqb k' k then Some v
                      else if str_eqb k' k0 then Some v0 else obj_get o k')
      by reflexivity.
    destruct (array_index k0) as [n0|]; [destruct (n0 <? n)%N|]; try exact Hstep.
    simpl. rewrite IH. destruct (str_eqb k' k0) eqn:E0; [|reflexivity].
    apply str_eqb_eq in E0. subst k0. now rewrite str_eqb_sym, Hk0.
Qed.

(** Reading after writing. *)
Lemma obj_get_set {V} (o : obj V) (k k' : jsstring) (v : V) :
  obj_get (obj_set o k v) k' = if str_eqb k' k then Some v else obj_get o k'.
Proof.
  unfold obj_set. destruct (has_key o k) eqn:H.
  - now apply obj_get_update.
  - destruct (array_index k) as [n|].
    + now apply obj_get_insert_index.
    + rewrite obj_get_app. simpl.
      destruct (str_eqb k' k) eqn:E.
      * apply str_eqb_eq in E. subst k'.
        apply obj_get_None in H. now rewrite H.
      * now destruct (obj_get o k').
Qed.













(** ** The record mapper *)









(** ** The scanner, one code unit at a time *)

Section Scanner.

Variable delimiter : jsstring.

Lemma scan_quoted_escaped (rest : jsstring) (st : scanner) :
  inQuotes st = true ->
  scan delimiter (DQUOTE :: DQUOTE :: rest) st = scan delimiter rest (add_char DQUOTE st).
Proof. intros H. simpl. now rewrite H. Qed.

Lemma scan_quoted_close (rest : jsstring) (st : scanner) :
  inQuotes st = true -> is_char DQUOTE (hd_error rest) = false ->
  scan delimiter (DQUOTE :: rest) st = scan delimiter rest (set_inQuotes false st).
Proof. intros H Hn. simpl. now rewrite H, Hn. Qed.

Lemma scan_quoted_other (c : char) (rest : jsstring) (st : scanner) :
  inQuotes st = true -> char_eqb c DQUOTE = false ->
  scan delimiter (c :: rest) st = scan delimiter rest (add_char c st).
Proof. intros H Hc. simpl. now rewrite H, Hc. Qed.

Lemma scan_open_quote (rest : jsstring) (st : scanner) :
  inQuotes st = false ->
  scan delimiter (DQUOTE :: rest) st = scan delimiter rest (set_inQuotes true st).
Proof. intros H. simpl. now rewrite H. Qed.

Lemma scan_delimiter (c : char) (rest : jsstring) (st : scanner) :
  inQuotes st = false -> char_eqb c DQUOTE = false -> is_delimiter c delimiter = true ->
  scan delimiter (c :: rest) st = scan delimiter rest (end_field st).
Proof. intros H Hc Hd. simpl. now rewrite H, Hc, Hd. Qed.

Lemma scan_line_feed (rest : jsstring) (st : scanner) :
  inQuotes st = false -> is_delimiter LF delimiter = false ->
  scan delimiter (LF :: rest) st = scan delimiter rest (end_row st).
Proof. intros H Hd. simpl. now rewrite H, Hd. Qed.

Lemma scan_plain (c : char) (rest : jsstring) (st : scanner) :
  inQuotes st = false -> char_eqb c DQUOTE = false -> is_delimiter c delimiter = false ->
  char_eqb c LF = false -> char_eqb c CR = false ->
  scan delimiter (c :: rest) st = scan delimiter rest (add_char c st).
Proof. intros H Hq Hd Hl Hr. simpl. now rewrite H, Hq, Hd, Hl, Hr. Qed.

End Scanner.

(** ** Writing a field and reading it back *)

Lemma startsWith_nil (s : jsstring) : startsWith s [] = true.
Proof. now destruct s. Qed.

Lemma includes_single (s : jsstring) (x : char) :
  includes s [x] = existsb (char_eqb x) s.
Proof.
  induction s as [|y s IH]; [reflexivity|].
  cbn [includes startsWith existsb]. now rewrite startsWith_nil, andb_true_r, IH.
Qed.

Lemma existsb_char_false (x : char) (s : jsstring) :
  existsb (char_eqb x) s = false -> forall c, In c s -> char_eqb c x = false.
Proof.
  intros H c Hin. destruct (char_eqb c x) eqn:E; [|reflexivity].
  apply char_eqb_eq in E. subst c.
  assert (existsb (char_eqb x) s = true)
    by (apply existsb_exists; exists x; split; [assumption|apply char_eqb_refl]).
  congruence.
Qed.

Lemma is_delimiter_single (c d : char) : is_delimiter c [d] = char_eqb c d.
Proof. unfold is_delimiter. simpl. apply andb_true_r. Qed.

Section Field.

Variable d : char.
Hypothesis d_plain : plain_delimiter d = true.

Lemma d_not_quote : char_eqb d DQUOTE = false.
Proof.
  unfold plain_delimiter in d_plain.
  now destruct (char_eqb d DQUOTE).
Qed.

Lemma d_not_lf : char_eqb d LF = false.
Proof.
  unfold plain_delimiter in d_plain.
  destruct (char_eqb d DQUOTE), (char_eqb d LF); simpl in d_plain; congruence.
Qed.

Lemma scan_unquoted (f rest : jsstring) (st : scanner) :
  inQuotes st = false ->
  (forall c, In c f -> char_eqb c DQUOTE = false /\ char_eqb c d = false /\
                       char_eqb c LF = false /\ char_eqb c CR = false) ->
  scan [d] (f ++ rest) st = scan [d] rest (add_chars f st).
Proof.
  revert st. induction f as [|c f IH]; intros st Hq H.
  - simpl. unfold add_chars. rewrite app_nil_r. now destruct st.
  - destruct (H c (or_introl eq_refl)) as (H1 & H2 & H3 & H4).
    simpl app. rewrite scan_plain; try assumption;
      [|now rewrite is_delimiter_single].
    rewrite IH; [|assumption|intros c' Hc'; apply H; now right].
    unfold add_chars, add_char. simpl. now rewrite <- app_assoc.
Qed.

Lemma scan_quoted (f rest : jsstring) (st : scanner) :
  inQuotes st = true -> is_char DQUOTE (hd_error rest) = false ->
  scan [d] (double_quotes f ++ DQUOTE :: rest) st
  = scan [d] rest (set_inQuotes false (add_chars f st)).
Proof.
  revert st. induction f as [|c f IH]; intros st Hq Hrest.
  - simpl app. rewrite scan_quoted_close by assumption.
    unfold add_chars, set_inQuotes. simpl. now rewrite app_nil_r.
  - unfold double_quotes. simpl flat_map. fold (double_quotes f).
    destruct (char_eqb c DQUOTE) eqn:E.
    + apply char_eqb_eq in E. subst c. simpl app.
      rewrite scan_quoted_escaped by assumption.
      rewrite IH by assumption.
      unfold add_chars, add_char, set_inQuotes. simpl. now rewrite <- app_assoc.
    + simpl app. rewrite scan_quoted_other by assumption.
      rewrite IH by assumption.
      unfold add_chars, add_char, set_inQuotes. simpl. now rewrite <- app_assoc.
Qed.

(** A field written by [escapeField] is read back as it was, whatever
    follows it, as long as what follows is not a quote. *)
Lemma scan_escapeField (f rest : jsstring) (st : scanner) :
  inQuotes st = false -> cr_safe [d] f = true ->
  is_char DQUOTE (hd_error rest) = false ->
  scan [d] (escapeField [d] (Some f) ++ rest) st = scan [d] rest (add_chars f st).
Proof.
  intros Hq Hcr Hrest. unfold escapeField.
  destruct (needs_quotes [d] f) eqn:En.
  - rewrite <- !app_assoc. simpl app at 1.
    rewrite scan_open_quote by assumption.
    rewrite scan_quoted by (assumption || reflexivity).
    unfold set_inQuotes, add_chars. simpl. now rewrite <- Hq; destruct st.
  - apply scan_unquoted; [assumption|].
    unfold cr_safe in Hcr. rewrite En in Hcr. simpl in Hcr.
    apply negb_true_iff in Hcr.
    unfold needs_quotes in En. rewrite !includes_single in En.
    apply orb_false_iff in En as [En E3]. apply orb_false_iff in En as [E1 E2].
    intros c Hc. repeat split.
    + now apply (existsb_char_false _ _ E2).
    + now apply (existsb_char_false _ _ E1).
    + now apply (existsb_char_false _ _ E3).
    + now apply (existsb_char_false _ _ Hcr).
Qed.

End Field.

(** ** Writing rows and reading them back *)

Section Lines.

Variable d : char.
Hypothesis d_plain : plain_delimiter d = true.

Lemma scan_row (f : jsstring) (fs : list jsstring) (rest : jsstring) (st : scanner) :
  inQuotes st = false -> field st = [] ->
  (forall x, In x (f :: fs) -> cr_safe [d] x = true) ->
  is_char DQUOTE (hd_error rest) = false ->
  scan [d] (serialize_row [d] (f :: fs) ++ rest) st
  = scan [d] rest
         (Scanner (rows st) (current st ++ removelast (f :: fs)) (last (f :: fs) []) false).
Proof.
  revert f st. induction fs as [|f2 fs IH]; intros f st Hq Hf Hcr Hrest.
  - unfold serialize_row. simpl map. simpl join.
    rewrite scan_escapeField; auto; [|apply Hcr; now left].
    unfold add_chars. rewrite Hf, Hq. simpl. now rewrite app_nil_r.
  - unfold serialize_row. simpl map.
    change (join [d] (escapeField [d] (Some f) :: escapeField [d] (Some f2)
                        :: map (fun f0 => escapeField [d] (Some f0)) fs))
      with (escapeField [d] (Some f) ++ [d] ++ serialize_row [d] (f2 :: fs)).
    rewrite <- !app_assoc.
    rewrite scan_escapeField; auto; [|apply Hcr; now left|].
    2:{ change (char_eqb DQUOTE d = false). unfold char_eqb.
        rewrite N.eqb_sym. apply (d_not_quote _ d_plain). }
    simpl app at 1.
    rewrite scan_delimiter;
      [|assumption|apply (d_not_quote _ d_plain)
       |rewrite is_delimiter_single; apply char_eqb_refl].
    rewrite IH; auto; [|intros x Hx; apply Hcr; now right].
    unfold end_field, add_chars. simpl. rewrite Hf, <- app_assoc. reflexivity.
Qed.

Lemma lf_not_delimiter : is_delimiter LF [d] = false.
Proof.
  rewrite is_delimiter_single. unfold char_eqb. rewrite N.eqb_sym.
  apply (d_not_lf _ d_plain).
Qed.


(** The rows written line by line are read back, the blank ones left out. *)
Lemma scan_lines (rs : list (list jsstring)) (st : scanner) :
  inQuotes st = false -> field st = [] -> current st = [] ->
  (forall r x, In r rs -> In x r -> cr_safe [d] x = true) ->
  rows (end_row (scan [d] (join [LF] (map (serialize_row [d]) rs)) st))
  = rows st ++ List.filter not_blank rs.
Proof.
  revert st. induction rs as [|r rs IH]; intros st Hq Hf Hc Hcr.
  - simpl. unfold end_row. rewrite Hf, Hc. simpl. now rewrite app_nil_r.
  - assert (Hrow : forall rest, is_char DQUOTE (hd_error rest) = false ->
             scan [d] (serialize_row [d] r ++ rest) st
             = scan [d] rest (Scanner (rows st) (removelast r)
                                      (last r []) false)).
    { intros rest Hrest. destruct r as [|f fs].
      - simpl. rewrite <- Hq, <- Hf, <- Hc. now destruct st.
      - rewrite scan_row; auto; [now rewrite Hc|].
        intros x Hx. apply (Hcr (f :: fs)); [now left|assumption]. }
    assert (Hend : forall st', rows st' = rows st -> current st' = removelast r ->
                               field st' = last r [] ->
             rows (end_row st')
             = rows st ++ List.filter not_blank [r]).
    { intros st' H1 H2 H3. unfold end_row. rewrite H1, H2, H3. simpl.
      destruct r as [|f fs]; [simpl; now rewrite app_nil_r|].
      rewrite <- app_removelast_last by discriminate.
      destruct (not_blank (f :: fs)); [reflexivity|now rewrite app_nil_r]. }
    destruct rs as [|r2 rs].
    + simpl map. simpl join.
      rewrite <- (app_nil_r (serialize_row [d] r)).
      rewrite Hrow by reflexivity. simpl scan. now apply Hend.
    + change (join [LF] (map (serialize_row [d]) (r :: r2 :: rs)))
        with (serialize_row [d] r ++ [LF] ++ join [LF] (map (serialize_row [d]) (r2 :: rs))).
      rewrite Hrow by reflexivity. simpl app.
      rewrite scan_line_feed; [|reflexivity|apply lf_not_delimiter].
      rewrite IH; try reflexivity.
      * rewrite (Hend (Scanner (rows st) (removelast r) (last r []) false)
                      eq_refl eq_refl eq_refl).
        simpl. destruct (not_blank r); simpl; now rewrite <- ?app_assoc, ?app_nil_r.
      * intros r' x Hr' Hx. apply (Hcr r'); [now right|assumption].
Qed.

Lemma tokenize_lines (rs : list (list jsstring)) :
  (forall r x, In r rs -> In x r -> cr_safe [d] x = true) ->
  tokenize (join [LF] (map (serialize_row [d]) rs)) [d] = List.filter not_blank rs.
Proof.
  intros H. unfold tokenize. now rewrite scan_lines.
Qed.

End Lines.

(** ** The round trip *)










(** ** Rows that are emitted *)

(** Every branch of the loop body either leaves [rows] alone or ends a
    row, and goes on with a shorter text. *)
Lemma scan_step (delimiter : jsstring) (c : char) (rest : jsstring) (st : scanner) :
  scan delimiter (c :: rest) st = st \/
  exists rest' st',
    scan delimiter (c :: rest) st = scan delimiter rest' st'
    /\ length rest' <= length rest
    /\ (rows st' = rows st \/ st' = end_row st).
Proof.
  simpl.
  destruct (inQuotes st).
  - destruct (char_eqb c DQUOTE && is_char DQUOTE (hd_error rest)).
    + destruct rest as [|c' rest']; [now left|].
      right. exists rest', (add_char DQUOTE st). simpl. auto.
    + right. destruct (char_eqb c DQUOTE);
        [exists rest, (set_inQuotes false st)|exists rest, (add_char c st)]; simpl; auto.
  - right. destruct (char_eqb c DQUOTE).
    { exists rest, (set_inQuotes true st). simpl. auto. }
    destruct (is_delimiter c delimiter).
    { exists rest, (end_field st). simpl. auto. }
    destruct (char_eqb c LF || char_eqb c CR && is_char LF (hd_error rest)) eqn:E.
    + destruct (char_eqb c CR) eqn:Ec.
      * destruct rest as [|c' rest'].
        { apply char_eqb_eq in Ec. subst c. discriminate E. }
        exists rest', (end_row st). simpl. auto.
      * exists rest, (end_row st). auto.
    + destruct (negb (char_eqb c CR));
        [exists rest, (add_char c st)|exists rest, st]; simpl; auto.
Qed.

Lemma end_row_not_blank (st : scanner) :
  Forall (fun row => not_blank row = true) (rows st) ->
  Forall (fun row => not_blank row = true) (rows (end_row st)).
Proof.
  intros H. unfold end_row. simpl.
  destruct (not_blank (current st ++ [field st])) eqn:E; [|assumption].
  apply Forall_app. split; [assumption|]. now constructor.
Qed.

Lemma scan_not_blank (delimiter text : jsstring) (st : scanner) :
  Forall (fun row => not_blank row = true) (rows st) ->
  Forall (fun row => not_blank row = true) (rows (scan delimiter text st)).
Proof.
  remember (length text) as n eqn:Hn.
  assert (Hle : length text <= n) by lia. clear Hn.
  revert text st Hle. induction n as [|n IH]; intros text st Hle H.
  - destruct text; [assumption|simpl in Hle; lia].
  - destruct text as [|c rest]; [assumption|].
    destruct (scan_step delimiter c rest st) as [->|(rest' & st' & -> & Hlen & Hst)];
      [assumption|].
    apply IH; [simpl in Hle; lia|].
    destruct Hst as [->| ->]; [assumption|now apply end_row_not_blank].
Qed.

Lemma not_blank_spec (row : list jsstring) :
  not_blank row = true <-> exists f, In f row /\ f <> [].
Proof.
  unfold not_blank. split.
  - intros H. apply andb_true_iff in H as [_ H].
    apply existsb_exists in H as (f & Hin & Hf).
    exists f. split; [assumption|]. now destruct f.
  - intros (f & Hin & Hf). apply andb_true_iff. split.
    + destruct row; [contradiction|reflexivity].
    + apply existsb_exists. exists f. split; [assumption|]. now destruct f.
Qed.

(** C6. No row of [tokenize] consists of empty fields only; where a row
    ends, it is emitted exactly when one of its fields is not empty;
    written rows are read back in order, exactly the blank ones left out;
    and the text with a blank line in the middle gives the header row and
    one data row. *)
Theorem tokenize_drops_blank_rows :
  (forall text delimiter row,
      In row (tokenize text delimiter) -> exists f, In f row /\ f <> [])
  /\ (forall st,
         rows (end_row st)
         = if not_blank (current st ++ [field st])
           then rows st ++ [current st ++ [field st]] else rows st)
  /\ (forall d rs,
         plain_delimiter d = true ->
         (forall r x, In r rs -> In x r -> cr_safe [d] x = true) ->
         tokenize (join [LF] (map (serialize_row [d]) rs)) [d]
         = List.filter not_blank rs)
  /\ tokenize (str "a,b" ++ [LF; LF] ++ str "1,2" ++ [LF]) (str ",")
     = [[str "a"; str "b"]; [str "1"; str "2"]].
Proof.
  repeat split.
  - intros text delimiter row Hin. apply not_blank_spec.
    unfold tokenize in Hin.
    assert (H : Forall (fun row => not_blank row = true)
                       (rows (end_row (scan delimiter text scan_init)))).
    { apply end_row_not_blank, scan_not_blank. constructor. }
    rewrite Forall_forall in H. now apply H.
  - intros d rs Hd Hcr. now apply tokenize_lines.
Qed.

(** C9. Inside a quoted field two quotes add one quote to the field and
    the scanner stays inside the quotes; a quote not followed by a quote
    leaves the quoted field and adds nothing; any other code unit, the
    delimiter and the line terminators included, is added as it is.  The
    quoted text with the escaped quotes of the specification is one field,
    and a quoted line feed does not end the row. *)
Theorem scan_inside_quotes :
  (forall delimiter rest st,
      inQuotes st = true ->
      scan delimiter (DQUOTE :: DQUOTE :: rest) st
      = scan delimiter rest (Scanner (rows st) (current st) (field st ++ [DQUOTE]) true))
  /\ (forall delimiter rest st,
         inQuotes st = true -> is_char DQUOTE (hd_error rest) = false ->
         scan delimiter (DQUOTE :: rest) st
         = scan delimiter rest (Scanner (rows st) (current st) (field st) false))
  /\ (forall delimiter c rest st,
         inQuotes st = true -> c <> DQUOTE ->
         scan delimiter (c :: rest) st
         = scan delimiter rest (Scanner (rows st) (current st) (field st ++ [c]) true))
  /\ tokenize ([DQUOTE] ++ str "he said " ++ [DQUOTE; DQUOTE] ++ str "hi"
                        ++ [DQUOTE; DQUOTE] ++ [DQUOTE]) (str ",")
     = [[str "he said " ++ [DQUOTE] ++ str "hi" ++ [DQUOTE]]]
  /\ tokenize ([DQUOTE] ++ str "line1" ++ [LF] ++ str "line2" ++ [DQUOTE] ++ str ",x")
              (str ",")
     = [[str "line1" ++ [LF] ++ str "line2"; str "x"]].
Proof.
  repeat split.
  - intros delimiter rest st H. rewrite scan_quoted_escaped by assumption.
    unfold add_char. now rewrite H.
  - intros delimiter rest st H Hn. now rewrite scan_quoted_close.
  - intros delimiter c rest st H Hc.
    rewrite scan_quoted_other; [|assumption|now apply char_eqb_neq].
    unfold add_char. now rewrite H.
Qed.

(** ** The keys of a parsed record *)






(** ** head and tail *)

(** X1. [head] returns the first [min n |data|] records, for every
    natural number [n]. *)
Lemma head_firstn {A} (data : list A) (n : nat) :
  head data (Z.of_nat n) = firstn (Nat.min n (length data)) data.
Proof.
  unfold head, slice, slice_index.
  destruct (Z.of_nat n <? 0)%Z eqn:E; [apply Z.ltb_lt in E; lia|].
  change (0 <? 0)%Z with false. cbv iota.
  replace (Z.to_nat (Z.min 0 (Z.of_nat (length data)))) with 0 by lia.
  rewrite Nat.sub_0_r. simpl skipn. f_equal. lia.
Qed.

(** X2. [tail] returns the last [min n |data|] records, for every
    natural number [n] other than zero. *)
Lemma tail_skipn {A} (data : list A) (n : nat) :
  0 < n ->
  tail data (Z.of_nat n) = skipn (length data - Nat.min n (length data)) data.
Proof.
  intros Hn. unfold tail, slice, slice_index.
  destruct (- Z.of_nat n <? 0)%Z eqn:E; [|apply Z.ltb_ge in E; lia].
  replace (Z.to_nat (Z.max (Z.of_nat (length data) + - Z.of_nat n) 0))
    with (length data - Nat.min n (length data)) by lia.
  apply firstn_all2. rewrite length_skipn. lia.
Qed.

Lemma tail_skipn_witness :
  tail [str "r1"; str "r2"; str "r3"] 2 = [str "r2"; str "r3"].
Proof. apply (@tail_skipn jsstring [str "r1"; str "r2"; str "r3"] 2). lia. Defined.

(** C3 at [n = 0]: [tail] returns the whole dataset, not its last zero
    records, because [slice(-0)] is [slice(0)]. *)
Theorem tail_zero_returns_everything :
  (forall (A : Type) (data : list A), tail data 0 = data)
  /\ tail [str "r1"; str "r2"] 0 = [str "r1"; str "r2"].
Proof.
  split; [|reflexivity].
  intros A data. unfold tail, slice, slice_index.
  change (- 0)%Z with 0%Z. change (0 <? 0)%Z with false. cbv iota.
  replace (Z.to_nat (Z.min 0 (Z.of_nat (length data)))) with 0 by lia.
  rewrite Nat.sub_0_r. apply firstn_all.
Qed.

(** ** filter *)

Lemma filter_result_total {A} (p : A -> bool) (xs : list A) :
  filter_result (fun x => Returns (p x)) xs = Returns (List.filter p xs).
Proof.
  induction xs as [|x xs IH]; [reflexivity|].
  simpl. rewrite IH. reflexivity.
Qed.

Lemma filter_result_ext {A} (f g : A -> result bool) (xs : list A) :
  (forall x, f x = g x) -> filter_result f xs = filter_result g xs.
Proof.
  intros H. induction xs as [|x xs IH]; [reflexivity|].
  simpl. now rewrite H, IH.
Qed.

Lemma num_ltb_NaN (a b : number) :
  num_ltb a b = true -> isNaN a = false /\ isNaN b = false.
Proof. destruct a as [|[]|], b as [|[]|]; simpl; intros H; auto; discriminate. Qed.

Lemma num_eqb_NaN (a b : number) :
  num_eqb a b = true -> isNaN a = false /\ isNaN b = false.
Proof. destruct a as [|[]|], b as [|[]|]; simpl; intros H; auto; discriminate. Qed.

Lemma both_parse_and_cmp (cmp : number -> number -> bool) a b :
  (forall x y, cmp x y = true -> isNaN x = false /\ isNaN y = false) ->
  cmp (parseFloat_opt a) (parseFloat b) = both_parse_and cmp a b.
Proof.
  intros H. unfold both_parse_and.
  destruct (cmp (parseFloat_opt a) (parseFloat b)) eqn:E.
  - destruct (H _ _ E) as [-> ->]. reflexivity.
  - now rewrite andb_false_r.
Qed.

Lemma num_gtb_NaN a b : num_gtb a b = true -> isNaN a = false /\ isNaN b = false.
Proof. unfold num_gtb. intros H. apply num_ltb_NaN in H. tauto. Qed.

Lemma num_leb_NaN a b : num_leb a b = true -> isNaN a = false /\ isNaN b = false.
Proof.
  unfold num_leb. intros H. apply orb_true_iff in H as [H|H];
    [now apply num_ltb_NaN|now apply num_eqb_NaN].
Qed.

Lemma num_geb_NaN a b : num_geb a b = true -> isNaN a = false /\ isNaN b = false.
Proof.
  unfold num_geb. intros H. apply orb_true_iff in H as [H|H];
    [apply num_ltb_NaN in H; tauto|now apply num_eqb_NaN].
Qed.

(** The entry of [ops] under [name] compares the parsed operands with
    [cmp], which is false on NaN. *)
Ltac numeric_op name cmp cmp_NaN :=
  match goal with
  | |- context [ops ?E (toLowerCase ?E name)] =>
      change (ops E (toLowerCase E name))
        with (Some (fun (a : option jsstring) (b : jsstring) =>
                      Returns (cmp (parseFloat_opt a) (parseFloat b))));
      rewrite <- filter_result_total; apply filter_result_ext;
      intros row; f_equal; apply both_parse_and_cmp, cmp_NaN
  end.

(** C8. With [gt], [lt], [gte] or [lte], [filter] returns, without error
    and in the original order, exactly the rows whose value and the
    comparison value both parse as Numbers and compare as asked; a row
    whose value is not a number, or that lacks the column, is left out. *)
Theorem filter_numeric
        (E : engine) (data : list (obj jsstring)) (column value : jsstring) :
  filter E data column (str "gt") value
  = Returns (List.filter (fun row => both_parse_and num_gtb (obj_get row column) value) data)
  /\ filter E data column (str "lt") value
     = Returns (List.filter (fun row => both_parse_and num_ltb (obj_get row column) value) data)
  /\ filter E data column (str "gte") value
     = Returns (List.filter (fun row => both_parse_and num_geb (obj_get row column) value) data)
  /\ filter E data column (str "lte") value
     = Returns (List.filter (fun row => both_parse_and num_leb (obj_get row column) value) data)
  /\ filter E [[(str "age", str "25")]; [(str "age", str "40")]; [(str "age", str "abc")]]
            (str "age") (str "gt") (str "30")
     = Returns [[(str "age", str "40")]].
Proof.
  unfold filter. repeat split.
  - numeric_op (str "gt") num_gtb num_gtb_NaN.
  - numeric_op (str "lt") num_ltb num_ltb_NaN.
  - numeric_op (str "gte") num_geb num_geb_NaN.
  - numeric_op (str "lte") num_leb num_leb_NaN.
Qed.





(** ** transform *)












(** ** Substituting a column reference *)

Lemma word_char_not_syntax (c : char) :
  is_word_char c = true -> is_syntax_char c = false.
Proof.
  intros H. unfold is_syntax_char. simpl.
  repeat match goal with
         | |- context [N.eqb c ?k] =>
             destruct (N.eqb_spec c k) as [->|_]; [discriminate H|]
         end.
  reflexivity.
Qed.

Lemma word_literal_pattern (col : jsstring) :
  forallb is_word_char col = true -> literal_pattern col = true.
Proof.
  unfold literal_pattern. rewrite !forallb_forall. intros H c Hc.
  apply negb_true_iff, word_char_not_syntax. now apply H.
Qed.

Lemma GetSubstitution_no_dollar (matched before after template : jsstring) :
  no_dollar template = true ->
  GetSubstitution matched before after template = template.
Proof.
  induction template as [|c t IH]; intros H; [reflexivity|].
  simpl in H. apply andb_true_iff in H as [Hc Ht].
  apply negb_true_iff in Hc. simpl. rewrite Hc. f_equal. now apply IH.
Qed.

Lemma no_dollar_app (a b : jsstring) :
  no_dollar (a ++ b) = no_dollar a && no_dollar b.
Proof. apply forallb_app. Qed.

Lemma no_dollar_firstn_skipn (n : nat) (s : jsstring) :
  no_dollar s = true -> no_dollar (firstn n s) = true /\ no_dollar (skipn n s) = true.
Proof.
  intros H. rewrite <- (firstn_skipn n s), no_dollar_app in H.
  now apply andb_true_iff in H.
Qed.

Lemma no_dollar_digit (m : N) (acc : jsstring) :
  no_dollar acc = true -> no_dollar ((48 + m)%N :: acc) = true.
Proof.
  intros H. unfold no_dollar in *. cbn [forallb]. rewrite H, andb_true_r.
  apply negb_true_iff, N.eqb_neq. unfold DOLLAR. lia.
Qed.

Lemma no_dollar_digits_fuel (fuel : nat) (z : Z) (acc : jsstring) :
  no_dollar acc = true -> no_dollar (digits_fuel fuel z acc) = true.
Proof.
  revert z acc. induction fuel as [|fuel IH]; intros z acc H; cbn [digits_fuel].
  - now apply no_dollar_digit.
  - destruct (z <? 10)%Z; [now apply no_dollar_digit|].
    apply IH. now apply no_dollar_digit.
Qed.

Lemma no_dollar_decimal_digits (z : Z) : no_dollar (decimal_digits z) = true.
Proof. now apply no_dollar_digits_fuel. Qed.

Lemma no_dollar_zeros (n : Z) : no_dollar (zeros n) = true.
Proof.
  unfold zeros. induction (Z.to_nat n) as [|k IH]; [reflexivity|].
  simpl. now rewrite IH.
Qed.

Lemma no_dollar_positive_toString (a b : Z) : no_dollar (positive_toString a b) = true.
Proof.
  unfold positive_toString.
  destruct (shortest_digits 16 a b (decimal_exponent a b) 1) as [s0 k].
  destruct (if (s0 =? 10 ^ k)%Z
            then ((s0 / 10)%Z, (decimal_exponent a b + 1)%Z)
            else (s0, decimal_exponent a b)) as [s n].
  pose proof (no_dollar_decimal_digits s) as Hd.
  destruct (no_dollar_firstn_skipn (Z.to_nat n) _ Hd) as [Hf Hs].
  destruct (no_dollar_firstn_skipn 1 _ Hd) as [Hf1 Hs1].
  pose proof (no_dollar_decimal_digits (Z.abs (n - 1))) as He.
  repeat match goal with
         | |- context [if ?c then _ else _] => destruct c
         end;
    rewrite ?no_dollar_app, ?no_dollar_zeros, ?Hd, ?Hf, ?Hs, ?Hf1, ?Hs1, ?He;
    reflexivity.
Qed.

Lemma no_dollar_Number_toString (n : number) : no_dollar (Number_toString n) = true.
Proof.
  destruct n as [|[]|num den]; try reflexivity.
  unfold Number_toString.
  destruct (num =? 0)%Z; [reflexivity|].
  destruct (num <? 0)%Z; [rewrite no_dollar_app|]; now rewrite no_dollar_positive_toString.
Qed.

Lemma no_dollar_literal_text (val : jsstring) :
  no_dollar val = true -> no_dollar (literal_text (replacement val)) = true.
Proof.
  intros H. unfold replacement.
  destruct (isNaN (parseFloat val)); unfold literal_text.
  - rewrite !no_dollar_app, H. reflexivity.
  - apply no_dollar_Number_toString.
Qed.

Lemma prev_snoc (before : jsstring) (c : char) :
  last (map Some (before ++ [c])) None = Some c.
Proof. rewrite map_app. simpl. apply last_last. Qed.

Lemma prev_app (before u : jsstring) :
  u <> [] -> last (map Some (before ++ u)) None = last (map Some u) None.
Proof.
  intros H. destruct (exists_last H) as (u' & a & ->).
  now rewrite app_assoc, !prev_snoc.
Qed.

Lemma startsWith_app (p s : jsstring) : startsWith (p ++ s) p = true.
Proof.
  induction p as [|x p IH]; simpl; [now destruct s|].
  now rewrite char_eqb_refl.
Qed.

Lemma startsWith_prefix (s p : jsstring) :
  startsWith s p = true -> exists s', s = p ++ s'.
Proof.
  revert s. induction p as [|x p IH]; intros s H.
  - now exists s.
  - destruct s as [|y s]; [discriminate|]. simpl in H.
    apply andb_true_iff in H as [Hxy H]. apply char_eqb_eq in Hxy. subst y.
    destruct (IH s H) as [s' ->]. now exists s'.
Qed.

Lemma skipn_length_app {A} (p s : list A) : skipn (length p) (p ++ s) = s.
Proof. induction p; simpl; auto. Qed.

Lemma word_prefix_split (e : jsstring) :
  exists u r, e = u ++ r /\ forallb is_word_char u = true
              /\ is_word (hd_error r) = false.
Proof.
  induction e as [|c e (u & r & -> & Hu & Hr)].
  - now exists [], [].
  - destruct (is_word_char c) eqn:E.
    + exists (c :: u), r. simpl. now rewrite E, Hu.
    + exists [], (c :: u ++ r). simpl. now rewrite E.
Qed.

Lemma col_last_word (col : jsstring) :
  col <> [] -> forallb is_word_char col = true ->
  is_word (last (map Some col) None) = true.
Proof.
  intros Hne Hw. destruct (exists_last Hne) as (c' & z & ->).
  rewrite prev_snoc. simpl.
  rewrite forallb_forall in Hw. apply Hw. apply in_or_app. right. now left.
Qed.

Lemma replace_from_skip (col template before x rest : jsstring) :
  replace_from col template before (x ++ rest) (length x)
  = replace_from col template (before ++ x) rest 0.
Proof.
  revert before. induction x as [|c x IH]; intros before.
  - simpl. now rewrite app_nil_r.
  - simpl. rewrite IH. now rewrite <- app_assoc.
Qed.

Lemma replace_from_no_match (col template before : jsstring) (c : char) (rest : jsstring) :
  word_match col before (c :: rest) = false ->
  replace_from col template before (c :: rest) 0
  = c :: replace_from col template (before ++ [c]) rest 0.
Proof. intros H. simpl. now rewrite H. Qed.

Lemma replace_from_end (col template before : jsstring) :
  col <> [] -> replace_from col template before [] 0 = [].
Proof.
  intros H. destruct col as [|c0 col']; [contradiction|].
  simpl. unfold word_match. simpl. now rewrite andb_false_r.
Qed.

Lemma replace_from_match (col template before rest : jsstring) :
  col <> [] -> no_dollar template = true ->
  word_match col before (col ++ rest) = true ->
  replace_from col template before (col ++ rest) 0
  = template ++ replace_from col template (before ++ col) rest 0.
Proof.
  intros Hne Ht H. destruct col as [|c0 col']; [contradiction|].
  change ((c0 :: col') ++ rest) with (c0 :: col' ++ rest) in *.
  cbn [replace_from]. rewrite H, GetSubstitution_no_dollar by assumption.
  f_equal. rewrite replace_from_skip. now rewrite <- app_assoc.
Qed.

(** A code unit that is not a word character starts no match. *)
Lemma word_match_not_word (col before : jsstring) (c : char) (rest : jsstring) :
  col <> [] -> forallb is_word_char col = true -> is_word_char c = false ->
  word_match col before (c :: rest) = false.
Proof.
  intros Hne Hw Hc. destruct col as [|c0 col']; [contradiction|].
  unfold word_match. simpl in Hw. apply andb_true_iff in Hw as [Hw0 _].
  simpl startsWith.
  destruct (char_eqb c0 c) eqn:E.
  - apply char_eqb_eq in E. congruence.
  - simpl. now rewrite andb_false_r.
Qed.

(** Inside a word no match starts. *)
Lemma word_match_inside (col before : jsstring) (c : char) (rest : jsstring) :
  is_word (last (map Some before) None) = true -> is_word_char c = true ->
  word_match col before (c :: rest) = false.
Proof.
  intros Hb Hc. unfold word_match, word_boundary. simpl. now rewrite Hb, Hc.
Qed.

(** At the start of a word there is a match exactly when the word is [col]. *)
Lemma word_match_start (col before u r : jsstring) :
  col <> [] -> forallb is_word_char col = true ->
  is_word (last (map Some before) None) = false ->
  u <> [] -> forallb is_word_char u = true -> is_word (hd_error r) = false ->
  word_match col before (u ++ r) = str_eqb u col.
Proof.
  intros Hne Hw Hb Hu Huw Hr. unfold word_match.
  assert (H1 : word_boundary (last (map Some before) None) (hd_error (u ++ r)) = true).
  { unfold word_boundary. rewrite Hb. destruct u as [|c u]; [contradiction|].
    simpl. simpl in Huw. now apply andb_true_iff in Huw as [-> _]. }
  rewrite H1. simpl andb.
  rewrite (prev_app before Hne).
  unfold word_boundary. rewrite (col_last_word Hne Hw).
  destruct (startsWith (u ++ r) col) eqn:Es.
  - apply startsWith_prefix in Es as [s' Hs'].
    apply app_eq_app in Hs' as [l [[Hl1 Hl2]|[Hl1 Hl2]]].
    + (* col is a prefix of u *)
      subst u s'. rewrite <- app_assoc, skipn_length_app.
      destruct l as [|x l].
      * rewrite app_nil_r, str_eqb_refl. simpl. now rewrite Hr.
      * simpl. rewrite forallb_app in Huw. apply andb_true_iff in Huw as [_ Hl].
        simpl in Hl. apply andb_true_iff in Hl as [-> _]. simpl.
        symmetry. apply str_eqb_neq. intros Heq.
        apply (f_equal (@length char)) in Heq. rewrite length_app in Heq.
        simpl in Heq. lia.
    + (* u is a prefix of col, and col goes on into r *)
      destruct l as [|y l].
      * rewrite app_nil_r in Hl1. subst col. simpl in Hl2. subst s'.
        rewrite skipn_length_app, str_eqb_refl. simpl. now rewrite Hr.
      * subst col r. simpl in Hr.
        rewrite forallb_app in Hw. apply andb_true_iff in Hw as [_ Hw].
        simpl in Hw. apply andb_true_iff in Hw as [Hy _]. congruence.
  - simpl. symmetry. apply str_eqb_neq. intros ->.
    now rewrite startsWith_app in Es.
Qed.

(** The rest of a word that did not match is copied. *)
Lemma replace_from_inside (col template before u r : jsstring) :
  is_word (last (map Some before) None) = true ->
  forallb is_word_char u = true ->
  replace_from col template before (u ++ r) 0
  = u ++ replace_from col template (before ++ u) r 0.
Proof.
  revert before. induction u as [|c u IH]; intros before Hb Hu.
  - simpl. now rewrite app_nil_r.
  - simpl in Hu. apply andb_true_iff in Hu as [Hc Hu].
    change ((c :: u) ++ r) with (c :: u ++ r).
    rewrite replace_from_no_match by (now apply word_match_inside).
    rewrite IH; [|now rewrite prev_snoc|assumption].
    now rewrite <- app_assoc.
Qed.

(** A whole word is replaced when it is [col] and copied otherwise. *)
Lemma replace_from_word (col template before u r : jsstring) :
  col <> [] -> forallb is_word_char col = true -> no_dollar template = true ->
  is_word (last (map Some before) None) = false ->
  u <> [] -> forallb is_word_char u = true -> is_word (hd_error r) = false ->
  replace_from col template before (u ++ r) 0
  = (if str_eqb u col then template else u)
    ++ replace_from col template (before ++ u) r 0.
Proof.
  intros Hne Hw Ht Hb Hu Huw Hr.
  pose proof (@word_match_start col before u r Hne Hw Hb Hu Huw Hr) as Hm.
  destruct (str_eqb u col) eqn:E.
  - apply str_eqb_eq in E. subst u. now apply replace_from_match.
  - destruct u as [|c u]; [contradiction|].
    change ((c :: u) ++ r) with (c :: u ++ r) in *.
    rewrite replace_from_no_match by assumption.
    simpl in Huw. apply andb_true_iff in Huw as [Hc Huw].
    rewrite replace_from_inside; [|now rewrite prev_snoc|assumption].
    now rewrite <- app_assoc.
Qed.

Lemma word_tokens_from_word (w u r : jsstring) :
  forallb is_word_char u = true ->
  word_tokens_from w (u ++ r) = word_tokens_from (w ++ u) r.
Proof.
  revert w. induction u as [|c u IH]; intros w Hu.
  - simpl. now rewrite app_nil_r.
  - simpl in Hu. apply andb_true_iff in Hu as [Hc Hu].
    simpl. rewrite Hc, IH by assumption. now rewrite <- app_assoc.
Qed.

(** The scan of [replace] and the replacement token by token agree. *)
Lemma replace_from_tokens (col template : jsstring) :
  col <> [] -> forallb is_word_char col = true -> no_dollar template = true ->
  forall n e before,
    length e <= n -> is_word (last (map Some before) None) = false ->
    replace_from col template before e 0
    = flat_map (fun t => if str_eqb t col then template else t) (word_tokens e).
Proof.
  intros Hne Hw Ht. unfold word_tokens.
  induction n as [|n IH]; intros e before Hlen Hb.
  - destruct e; [|simpl in Hlen; lia]. now rewrite replace_from_end.
  - destruct (word_prefix_split e) as (u & r & -> & Huw & Hr).
    destruct u as [|c u].
    + (* no word here *)
      destruct r as [|c r]; [now rewrite replace_from_end|].
      simpl in Hr. simpl app.
      rewrite replace_from_no_match by (now apply word_match_not_word).
      cbn [word_tokens_from]. rewrite Hr. cbn [is_empty app flat_map].
      assert (Hc : str_eqb [c] col = false).
      { apply str_eqb_neq. intros <-. simpl in Hw. now rewrite Hr in Hw. }
      rewrite Hc. simpl. f_equal.
      apply IH; [simpl in Hlen; lia|now rewrite prev_snoc].
    + (* a word, then the end or a code unit that is not a word character *)
      rewrite replace_from_word; try assumption; [|discriminate].
      rewrite word_tokens_from_word by assumption. simpl app at 3.
      destruct r as [|c' r].
      * rewrite replace_from_end by assumption. simpl. now rewrite !app_nil_r.
      * simpl in Hr.
        rewrite replace_from_no_match by (now apply word_match_not_word).
        cbn [word_tokens_from]. rewrite Hr. cbn [is_empty app flat_map].
        assert (Hc : str_eqb [c'] col = false).
        { apply str_eqb_neq. intros <-. simpl in Hw. now rewrite Hr in Hw. }
        rewrite Hc. simpl. f_equal. f_equal.
        apply IH.
        -- rewrite length_app in Hlen. simpl in Hlen. lia.
        -- now rewrite prev_snoc.
Qed.

(** *** The whole record *)

(** Strings are made of words separated by code units that are not word
    characters. *)
Lemma word_split_ind (P : jsstring -> Prop) :
  (forall u, forallb is_word_char u = true -> P u) ->
  (forall u x r, forallb is_word_char u = true -> is_word_char x = false ->
                 P r -> P (u ++ x :: r)) ->
  forall e, P e.
Proof.
  intros Hword Hsplit e.
  remember (length e) as n eqn:Hn.
  assert (Hle : length e <= n) by lia. clear Hn.
  revert e Hle. induction n as [|n IH]; intros e Hle.
  - destruct e; [now apply Hword|simpl in Hle; lia].
  - destruct (word_prefix_split e) as (u & r & -> & Hu & Hr).
    destruct r as [|x r].
    + rewrite app_nil_r. now apply Hword.
    + simpl in Hr. apply Hsplit; try assumption.
      apply IH. rewrite length_app in Hle. simpl in Hle. lia.
Qed.

Lemma word_tokens_from_app_nonword (w a : jsstring) (x : char) (b : jsstring) :
  is_word_char x = false ->
  word_tokens_from w (a ++ x :: b)
  = word_tokens_from w a ++ [[x]] ++ word_tokens b.
Proof.
  intros Hx. revert w. induction a as [|c a IH]; intros w.
  - simpl. rewrite Hx. now destruct w.
  - simpl. destruct (is_word_char c).
    + apply IH.
    + rewrite (IH []). now rewrite <- !app_assoc.
Qed.

Lemma word_tokens_app_nonword (a : jsstring) (x : char) (b : jsstring) :
  is_word_char x = false ->
  word_tokens (a ++ x :: b) = word_tokens a ++ [[x]] ++ word_tokens b.
Proof. apply word_tokens_from_app_nonword. Qed.

Lemma word_tokens_word (u : jsstring) :
  forallb is_word_char u = true ->
  word_tokens u = if is_empty u then [] else [u].
Proof.
  intros Hu. unfold word_tokens.
  rewrite <- (app_nil_r u) at 1. now rewrite word_tokens_from_word.
Qed.

Lemma concat_word_tokens_from (w e : jsstring) :
  concat (word_tokens_from w e) = w ++ e.
Proof.
  revert w. induction e as [|c e IH]; intros w.
  - simpl. destruct w; simpl; now rewrite ?app_nil_r.
  - simpl. destruct (is_word_char c).
    + rewrite IH. now rewrite <- app_assoc.
    + rewrite concat_app. simpl. rewrite (IH []).
      destruct w; simpl; now rewrite ?app_nil_r.
Qed.

Lemma concat_word_tokens (e : jsstring) : concat (word_tokens e) = e.
Proof. apply (concat_word_tokens_from [] e). Qed.

Lemma replace_tokens_app_nonword (col text a : jsstring) (x : char) (b : jsstring) :
  forallb is_word_char col = true -> is_word_char x = false ->
  replace_tokens col text (a ++ x :: b)
  = replace_tokens col text a ++ x :: replace_tokens col text b.
Proof.
  intros Hw Hx. unfold replace_tokens.
  rewrite word_tokens_app_nonword by assumption.
  rewrite !flat_map_app. cbn [flat_map].
  assert (Hc : str_eqb [x] col = false).
  { apply str_eqb_neq. intros <-. simpl in Hw. now rewrite Hx in Hw. }
  now rewrite Hc, app_nil_r.
Qed.

Lemma replace_tokens_word (col text u : jsstring) :
  forallb is_word_char u = true ->
  replace_tokens col text u
  = if is_empty u then [] else if str_eqb u col then text else u.
Proof.
  intros Hu. unfold replace_tokens. rewrite word_tokens_word by assumption.
  destruct u; [reflexivity|]. simpl. now rewrite app_nil_r.
Qed.

Lemma plain_column_spec (kv : jsstring * jsstring) :
  plain_column kv = true ->
  fst kv <> [] /\ forallb is_word_char (fst kv) = true /\ no_dollar (snd kv) = true.
Proof.
  unfold plain_column. intros H.
  apply andb_true_iff in H as [H H3]. apply andb_true_iff in H as [H1 H2].
  repeat split; try assumption. intros E. now rewrite E in H1.
Qed.

Lemma obj_get_nonword (row : obj jsstring) (x : char) :
  forallb plain_column row = true -> is_word_char x = false -> obj_get row [x] = None.
Proof.
  intros Hrow Hx. induction row as [|[k v] row IH]; [reflexivity|].
  simpl in Hrow. apply andb_true_iff in Hrow as [Hk Hrow].
  destruct (plain_column_spec _ Hk) as (_ & Hw & _). simpl in Hw.
  cbn [obj_get]. destruct (str_eqb [x] k) eqn:E; [|now apply IH].
  apply str_eqb_eq in E. subst k. simpl in Hw. now rewrite Hx in Hw.
Qed.

Lemma substituted_token_absent (row : obj jsstring) (ts : list jsstring) :
  forallb (fun t => negb (has_key row t)) ts = true ->
  flat_map (substituted_token row) ts = concat ts.
Proof.
  induction ts as [|t ts IH]; intros H; [reflexivity|].
  simpl in H. apply andb_true_iff in H as [Ht H].
  apply negb_true_iff, obj_get_None in Ht.
  simpl. unfold substituted_token at 1. rewrite Ht. f_equal. now apply IH.
Qed.

Lemma substituted_token_word (k v : jsstring) (row : obj jsstring) (u : jsstring) :
  forallb (fun t => negb (has_key row t))
          (word_tokens (literal_text (replacement v))) = true ->
  forallb is_word_char u = true ->
  flat_map (substituted_token row)
           (word_tokens (replace_tokens k (literal_text (replacement v)) u))
  = flat_map (substituted_token ((k, v) :: row)) (word_tokens u).
Proof.
  intros Hlit Hu.
  rewrite (replace_tokens_word k (literal_text (replacement v)) u Hu).
  rewrite (word_tokens_word u Hu).
  destruct u as [|c u]; [reflexivity|]. cbn [is_empty flat_map].
  unfold substituted_token at 2. cbn [obj_get].
  destruct (str_eqb (c :: u) k) eqn:E.
  - rewrite substituted_token_absent by assumption.
    now rewrite concat_word_tokens, app_nil_r.
  - rewrite (word_tokens_word (c :: u) Hu). reflexivity.
Qed.

(** Replacing the references to one column and then those to the others
    comes to replacing each token once. *)
Lemma substituted_token_step (k v : jsstring) (row : obj jsstring) (e : jsstring) :
  forallb plain_column ((k, v) :: row) = true ->
  independent ((k, v) :: row) = true ->
  flat_map (substituted_token row)
           (word_tokens (replace_tokens k (literal_text (replacement v)) e))
  = flat_map (substituted_token ((k, v) :: row)) (word_tokens e).
Proof.
  intros Hplain Hind.
  assert (Hkv := Hplain).
  simpl in Hplain. apply andb_true_iff in Hplain as [Hk Hrow].
  destruct (plain_column_spec _ Hk) as (Hne & Hw & _). simpl in Hne, Hw.
  simpl in Hind. apply andb_true_iff in Hind as [Hlit _].
  induction e as [u Hu|u x r Hu Hx IH] using word_split_ind.
  - now apply substituted_token_word.
  - rewrite replace_tokens_app_nonword by assumption.
    rewrite !word_tokens_app_nonword by assumption.
    rewrite !flat_map_app. f_equal; [now apply substituted_token_word|].
    f_equal; [|exact IH].
    cbn [flat_map]. unfold substituted_token.
    rewrite (obj_get_nonword row x Hrow Hx).
    now rewrite (obj_get_nonword ((k, v) :: row) x Hkv Hx).
Qed.

Lemma substitute_step (E : engine) (col val evalExpr : jsstring) :
  col <> [] -> forallb is_word_char col = true -> no_dollar val = true ->
  substitute E col val evalExpr
  = Returns (replace_tokens col (literal_text (replacement val)) evalExpr).
Proof.
  intros Hne Hw Hval.
  unfold substitute, RegExp_word_g. rewrite (word_literal_pattern col Hw).
  f_equal. unfold replace_tokens.
  apply (@replace_from_tokens col (literal_text (replacement val)) Hne Hw
           (no_dollar_literal_text val Hval) (length evalExpr) evalExpr []);
    [lia|reflexivity].
Qed.

Lemma substitute_all_tokens (E : engine) (row : obj jsstring) (expr : jsstring) :
  forallb plain_column row = true -> independent row = true ->
  substitute_all E row expr
  = Returns (flat_map (substituted_token row) (word_tokens expr)).
Proof.
  revert expr. induction row as [|[k v] row IH]; intros expr Hplain Hind.
  - simpl. f_equal. rewrite <- (concat_word_tokens expr) at 1.
    symmetry. apply substituted_token_absent.
    apply forallb_forall. reflexivity.
  - assert (Hplain' := Hplain). assert (Hind' := Hind).
    simpl in Hplain'. apply andb_true_iff in Hplain' as [Hk Hrow].
    destruct (plain_column_spec _ Hk) as (Hne & Hw & Hv). simpl in Hne, Hw, Hv.
    simpl in Hind'. apply andb_true_iff in Hind' as [_ Hind'].
    cbn [substitute_all]. rewrite substitute_step by assumption.
    rewrite IH by assumption. f_equal.
    now apply substituted_token_step.
Qed.
(** C2, amended.  The substitution of [transform] on a record whose
    column names are words and whose values hold no [$], no replacement
    text bringing in the name of a column still to come: every token of
    the expression that is a column name is replaced by the text for that
    column's value, and nothing else changes.  The text for a value is the
    decimal text of [parseFloat(val)] when that is not NaN, that is, when
    [val] begins, after white space, with a decimal literal, whether or
    not the literal is all of [val]; otherwise it is [val] between double
    quotes. *)
Theorem substitute_all_whole_words
        (E : engine) (row : obj jsstring) (expr : jsstring) :
  forallb plain_column row = true -> independent row = true ->
  substitute_all E row expr
  = Returns (flat_map (substituted_token row) (word_tokens expr))
  /\ (forall t, obj_get row t = None -> substituted_token row t = t)
  /\ (forall col val,
         obj_get row col = Some val ->
         substituted_token row col = literal_text (replacement val)
         /\ (isNaN (parseFloat val) = false ->
             replacement val = NumericLiteral (parseFloat val)
             /\ literal_text (replacement val) = Number_toString (parseFloat val))
         /\ (isNaN (parseFloat val) = true ->
             replacement val = QuotedLiteral val
             /\ literal_text (replacement val) = [DQUOTE] ++ val ++ [DQUOTE])
         /\ (parses_fully val = true -> isNaN (parseFloat val) = false)).
Proof.
  intros Hplain Hind. split; [now apply substitute_all_tokens|]. split.
  - intros t Ht. unfold substituted_token. now rewrite Ht.
  - intros col val Hget. split; [|split; [|split]].
    + unfold substituted_token. now rewrite Hget.
    + intros H. unfold replacement. now rewrite H.
    + intros H. unfold replacement. now rewrite H.
    + intros H. unfold parses_fully in H. apply andb_true_iff in H as [H _].
      now apply negb_true_iff in H.
Qed.

Lemma substitute_all_whole_words_witness :
  let row := [(str "price", str "10"); (str "qty", str "3 units"); (str "unit", str "kg")] in
  let expr := str "price*qty + unit + price2" in
  substitute_all literal_engine row expr
  = Returns (flat_map (substituted_token row) (word_tokens expr))
  /\ (forall t, obj_get row t = None -> substituted_token row t = t)
  /\ (forall col val,
         obj_get row col = Some val ->
         substituted_token row col = literal_text (replacement val)
         /\ (isNaN (parseFloat val) = false ->
             replacement val = NumericLiteral (parseFloat val)
             /\ literal_text (replacement val) = Number_toString (parseFloat val))
         /\ (isNaN (parseFloat val) = true ->
             replacement val = QuotedLiteral val
             /\ literal_text (replacement val) = [DQUOTE] ++ val ++ [DQUOTE])
         /\ (parses_fully val = true -> isNaN (parseFloat val) = false)).
Proof.
  apply (@substitute_all_whole_words literal_engine
           [(str "price", str "10"); (str "qty", str "3 units"); (str "unit", str "kg")]
           (str "price*qty + unit + price2")); reflexivity.
Defined.

(** C2 as stated fails: the value [12abc] is not a number in its
    entirety, and yet the reference to its column is replaced by the
    numeric literal [12], not by the quoted value. *)
Lemma substitute_numeric_prefix :
  parses_fully (str "12abc") = false
  /\ replacement (str "12abc") = NumericLiteral (Finite 12 1)
  /\ (forall E, substitute_all E [(str "price", str "2.50"); (str "qty", str "12abc")]
                               (str "price*qty")
                = Returns (str "2.5*12")).
Proof. repeat split. Qed.

(** ** Keys of the objects that the functions build *)















(** ** Sets as lists without repetition *)

Section Distinct.

Variable A : Type.
Variable eqb : A -> A -> bool.
Hypothesis eqb_eq : forall a b, eqb a b = true <-> a = b.











End Distinct.


(** ** parseCSV: the records have the same keys *)


(** ** merge *)








(** ** unique *)


(** ** filter: the operators *)

Lemma filter_result_Returns {A} (f : A -> result bool) (xs ys : list A) :
  filter_result f xs = Returns ys ->
  ys = List.filter (fun x => match f x with Returns true => true | _ => false end) xs.
Proof.
  revert ys. induction xs as [|x xs IH]; intros ys H.
  - simpl in H. now injection H as <-.
  - simpl in H. simpl. destruct (f x) as [keep|e]; [|discriminate].
    destruct (filter_result f xs) as [zs|e]; [|discriminate].
    injection H as <-. rewrite <- (IH zs eq_refl). now destruct keep.
Qed.


(** X7. When [filter] returns, the result is made of rows of the dataset
    in their order, and whether a row is kept depends only on the value
    it has in the column. *)
Theorem filter_selects_by_value
        (E : engine) (data : list (obj jsstring)) (column operator value : jsstring)
        (out : list (obj jsstring)) :
  filter E data column operator value = Returns out ->
  exists keep : option jsstring -> bool,
    out = List.filter (fun row => keep (obj_get row column)) data.
Proof.
  unfold filter. destruct (ops E (toLowerCase E operator)) as [op|]; [|discriminate].
  intros H. apply filter_result_Returns in H.
  exists (fun a => match op a value with Returns true => true | _ => false end).
  exact H.
Qed.

Lemma filter_selects_by_value_witness :
  exists keep : option jsstring -> bool,
    [[(str "age", str "40")]]
    = List.filter (fun row => keep (obj_get row (str "age")))
                  [[(str "age", str "25")]; [(str "age", str "40")]].
Proof.
  apply (@filter_selects_by_value literal_engine
           [[(str "age", str "25")]; [(str "age", str "40")]]
           (str "age") (str "GTE") (str "40")).
  reflexivity.
Defined.




Lemma filter_partition {A} (p : A -> bool) (xs : list A) :
  Permutation (List.filter p xs ++ List.filter (fun x => negb (p x)) xs) xs.
Proof.
  induction xs as [|x xs IH]; [constructor|].
  simpl. destruct (p x); simpl.
  - now constructor.
  - apply Permutation_sym, Permutation_cons_app, Permutation_sym, IH.
Qed.

Lemma filter_eq_unfold (E : engine) (data : list (obj jsstring)) (column value : jsstring) :
  filter E data column (str "eq") value
  = Returns (List.filter (fun row => strict_eq (obj_get row column) value) data)
  /\ filter E data column (str "ne") value
     = Returns (List.filter (fun row => negb (strict_eq (obj_get row column) value)) data).
Proof.
  split.
  - change (filter E data column (str "eq") value)
      with (filter_result (fun row => Returns (strict_eq (obj_get row column) value)) data).
    apply filter_result_total.
  - change (filter E data column (str "ne") value)
      with (filter_result
              (fun row => Returns (negb (strict_eq (obj_get row column) value))) data).
    apply (filter_result_total
             (fun row => negb (strict_eq (obj_get row column) value))).
Qed.

Lemma strict_eq_spec (a : option jsstring) (b : jsstring) :
  strict_eq a b = true <-> a = Some b.
Proof.
  destruct a as [s|]; simpl.
  - rewrite str_eqb_eq. split; congruence.
  - split; discriminate.
Qed.

(** X9. The operators [eq] and [ne] split the dataset: [eq] keeps, in
    order, the rows whose value in the column is exactly the given text
    (a row without the column is never kept), [ne] keeps the others, and
    the two results together hold every row once. *)
Theorem filter_eq_ne
        (E : engine) (data : list (obj jsstring)) (column value : jsstring) :
  exists same other,
    filter E data column (str "eq") value = Returns same
    /\ filter E data column (str "ne") value = Returns other
    /\ Permutation (same ++ other) data
    /\ (forall row, In row same <-> In row data /\ obj_get row column = Some value)
    /\ (forall row, In row other <-> In row data /\ obj_get row column <> Some value).
Proof.
  destruct (filter_eq_unfold E data column value) as [Heq Hne].
  eexists. eexists. split; [exact Heq|]. split; [exact Hne|].
  split; [apply (filter_partition (fun row => strict_eq (obj_get row column) value))|].
  split; intros row; rewrite filter_In.
  - now rewrite strict_eq_spec.
  - rewrite negb_true_iff, <- not_true_iff_false, strict_eq_spec. reflexivity.
Qed.




Lemma toLowerCase_ascii (E : engine) (s : jsstring) :
  forallb is_ascii s = true -> toLowerCase E s = map to_lower_ascii s.
Proof. unfold toLowerCase. now intros ->. Qed.

Lemma filter_text_unfold (E : engine) (data : list (obj jsstring))
      (column value : jsstring) :
  filter E data column (str "contains") value
  = Returns (List.filter
               (fun row => includes (toLowerCase E (String_of (obj_get row column)))
                                    (toLowerCase E value)) data)
  /\ filter E data column (str "startswith") value
     = Returns (List.filter
                  (fun row => startsWith (toLowerCase E (String_of (obj_get row column)))
                                         (toLowerCase E value)) data)
  /\ filter E data column (str "endswith") value
     = Returns (List.filter
                  (fun row => endsWith (toLowerCase E (String_of (obj_get row column)))
                                       (toLowerCase E value)) data).
Proof.
  split; [|split].
  - change (filter E data column (str "contains") value)
      with (filter_result
              (fun row => Returns (includes (toLowerCase E (String_of (obj_get row column)))
                                            (toLowerCase E value))) data).
    apply (filter_result_total
             (fun row => includes (toLowerCase E (String_of (obj_get row column)))
                                  (toLowerCase E value))).
  - change (filter E data column (str "startswith") value)
      with (filter_result
              (fun row => Returns (startsWith (toLowerCase E (String_of (obj_get row column)))
                                              (toLowerCase E value))) data).
    apply (filter_result_total
             (fun row => startsWith (toLowerCase E (String_of (obj_get row column)))
                                    (toLowerCase E value))).
  - change (filter E data column (str "endswith") value)
      with (filter_result
              (fun row => Returns (endsWith (toLowerCase E (String_of (obj_get row column)))
                                            (toLowerCase E value))) data).
    apply (filter_result_total
             (fun row => endsWith (toLowerCase E (String_of (obj_get row column)))
                                  (toLowerCase E value))).
Qed.

(** X11. The text operators [contains], [startswith] and [endswith]
    never fail and do not see the letter case of an ASCII value: two
    values that differ only in the case of their letters select the same
    rows. *)
Theorem filter_text_ignores_case
        (E : engine) (data : list (obj jsstring)) (column operator v1 v2 : jsstring) :
  In operator [str "contains"; str "startswith"; str "endswith"] ->
  forallb is_ascii v1 = true -> forallb is_ascii v2 = true ->
  map to_lower_ascii v1 = map to_lower_ascii v2 ->
  filter E data column operator v1 = filter E data column operator v2
  /\ exists out, filter E data column operator v1 = Returns out.
Proof.
  intros Hop H1 H2 Hlow.
  assert (Hsame : toLowerCase E v1 = toLowerCase E v2)
    by (now rewrite !toLowerCase_ascii by assumption).
  destruct (filter_text_unfold E data column v1) as (Hc1 & Hs1 & He1).
  destruct (filter_text_unfold E data column v2) as (Hc2 & Hs2 & He2).
  simpl in Hop. destruct Hop as [<-|[<-|[<-|[]]]].
  - rewrite Hc1, Hc2, Hsame. split; [reflexivity|eexists; reflexivity].
  - rewrite Hs1, Hs2, Hsame. split; [reflexivity|eexists; reflexivity].
  - rewrite He1, He2, Hsame. split; [reflexivity|eexists; reflexivity].
Qed.

Lemma filter_text_ignores_case_witness :
  filter literal_engine [[(str "name", str "Alice")]; [(str "name", str "Bob")]]
         (str "name") (str "contains") (str "LI")
  = filter literal_engine [[(str "name", str "Alice")]; [(str "name", str "Bob")]]
           (str "name") (str "contains") (str "li")
  /\ exists out,
      filter literal_engine [[(str "name", str "Alice")]; [(str "name", str "Bob")]]
             (str "name") (str "contains") (str "LI") = Returns out.
Proof.
  apply (@filter_text_ignores_case literal_engine
           [[(str "name", str "Alice")]; [(str "name", str "Bob")]]
           (str "name") (str "contains") (str "LI") (str "li")).
  - simpl. tauto.
  - reflexivity.
  - reflexivity.
  - reflexivity.
Defined.



(** ** transform: the syntax of the expression *)

Lemma whitespace_not_word (c : char) :
  is_whitespace c = true -> is_word_char c = false.
Proof.
  unfold is_whitespace, is_word_char, is_digit, char_eqb. cbn [existsb].
  rewrite !orb_true_iff, !andb_true_iff, !N.eqb_eq, !N.leb_le.
  rewrite !orb_false_iff, !andb_false_iff, N.eqb_neq, !N.leb_gt. lia.
Qed.

Lemma match_rest_Some (r body : jsstring) :
  match_rest r = Some body <->
  r = body /\ body <> [] /\ forallb (fun c => negb (is_line_terminator c)) body = true.
Proof.
  unfold match_rest. destruct r as [|c r].
  - simpl. split; [discriminate|]. intros (<- & H & _). now contradiction H.
  - cbn [is_empty negb andb].
    destruct (forallb (fun c => negb (is_line_terminator c)) (c :: r)) eqn:Hl.
    + split.
      * intros H. injection H as <-. now repeat split.
      * now intros (<- & _ & _).
    + split; [discriminate|]. intros (<- & _ & H). congruence.
Qed.

Lemma match_body_sound (r body : jsstring) :
  match_body r = Some body ->
  exists ws, r = ws ++ body /\ forallb is_whitespace ws = true
             /\ match_rest body = Some body.
Proof.
  induction r as [|c r IH]; [discriminate|].
  assert (Hrest : match_rest (c :: r) = Some body ->
                  exists ws, c :: r = ws ++ body /\ forallb is_whitespace ws = true
                             /\ match_rest body = Some body).
  { intros H. pose proof H as H'. apply match_rest_Some in H' as (<- & _).
    now exists []. }
  cbn [match_body]. destruct (is_whitespace c) eqn:Hc; [|exact Hrest].
  destruct (match_body r) as [body'|]; [|exact Hrest].
  intros H. injection H as ->. destruct (IH eq_refl) as (ws & -> & Hws & Hb).
  exists (c :: ws). simpl. now rewrite Hc.
Qed.

Lemma match_body_total (ws body : jsstring) :
  forallb is_whitespace ws = true -> match_rest body = Some body ->
  exists body', match_body (ws ++ body) = Some body'.
Proof.
  intros Hws Hb. induction ws as [|c ws IH].
  - destruct body as [|c r]; [discriminate|]. cbn [app match_body].
    destruct (is_whitespace c); [|now exists (c :: r)].
    destruct (match_body r) as [body'|]; [now exists body'|now exists (c :: r)].
  - simpl in Hws. apply andb_true_iff in Hws as [Hc Hws].
    destruct (IH Hws) as [body' H]. exists body'.
    cbn [app match_body]. now rewrite Hc, H.
Qed.

Lemma match_body_complete (ws body : jsstring) :
  forallb is_whitespace ws = true -> match_rest body = Some body ->
  is_whitespace (hd 0%N body) = false ->
  match_body (ws ++ body) = Some body.
Proof.
  intros Hws Hb Hhd. induction ws as [|c ws IH].
  - destruct body as [|c r]; [discriminate|]. cbn [app match_body].
    simpl in Hhd. now rewrite Hhd.
  - simpl in Hws. apply andb_true_iff in Hws as [Hc Hws].
    cbn [app match_body]. now rewrite Hc, (IH Hws).
Qed.

Lemma match_equals_sound (r body : jsstring) :
  match_equals r = Some body ->
  exists ws r', r = ws ++ [61%N] ++ r' /\ forallb is_whitespace ws = true
                /\ match_body r' = Some body.
Proof.
  induction r as [|c r IH]; [discriminate|].
  assert (Hhere : (if char_eqb c 61%N then match_body r else None) = Some body ->
                  exists ws r', c :: r = ws ++ [61%N] ++ r'
                                /\ forallb is_whitespace ws = true
                                /\ match_body r' = Some body).
  { destruct (char_eqb c 61%N) eqn:Hc; [|discriminate].
    apply N.eqb_eq in Hc. subst c. intros H. now exists [], r. }
  cbn [match_equals]. destruct (is_whitespace c) eqn:Hc; [|exact Hhere].
  destruct (match_equals r) as [body'|]; [|exact Hhere].
  intros H. injection H as ->. destruct (IH eq_refl) as (ws & r' & -> & Hws & Hb).
  exists (c :: ws), r'. simpl. now rewrite Hc.
Qed.

Lemma match_equals_complete (ws r body : jsstring) :
  forallb is_whitespace ws = true -> match_body r = Some body ->
  match_equals (ws ++ [61%N] ++ r) = Some body.
Proof.
  intros Hws Hb. induction ws as [|c ws IH].
  - exact Hb.
  - simpl in Hws. apply andb_true_iff in Hws as [Hc Hws].
    cbn [app match_equals]. rewrite Hc. cbn [app] in IH. now rewrite (IH Hws).
Qed.

Lemma match_name_sound (acc r name body : jsstring) :
  match_name acc r = Some (name, body) ->
  exists n r', r = n ++ r' /\ name = acc ++ n /\ n <> []
               /\ forallb is_word_char n = true /\ match_equals r' = Some body.
Proof.
  revert acc. induction r as [|c r IH]; intros acc; [discriminate|].
  cbn [match_name]. destruct (is_word_char c) eqn:Hc; [|discriminate].
  destruct (match_name (acc ++ [c]) r) as [groups|] eqn:Hn.
  - intros H. injection H as ->.
    destruct (IH _ Hn) as (n & r' & -> & -> & Hne & Hw & He).
    exists (c :: n), r'. rewrite <- app_assoc. simpl. rewrite Hc.
    split; [reflexivity|]. split; [reflexivity|]. split; [discriminate|].
    split; assumption.
  - destruct (match_equals r) as [body'|] eqn:He; [|discriminate].
    intros H. injection H as <- <-. exists [c], r. simpl. rewrite Hc.
    split; [reflexivity|]. split; [reflexivity|]. split; [discriminate|].
    split; [reflexivity|assumption].
Qed.

Lemma match_name_stops (acc r : jsstring) :
  is_word_char (hd 0%N r) = false -> match_name acc r = None.
Proof.
  destruct r as [|c r]; [reflexivity|]. simpl. now intros ->.
Qed.

Lemma match_name_complete (acc n r body : jsstring) :
  n <> [] -> forallb is_word_char n = true ->
  is_word_char (hd 0%N r) = false -> match_equals r = Some body ->
  match_name acc (n ++ r) = Some (acc ++ n, body).
Proof.
  intros Hne Hw Hr He. revert acc.
  induction n as [|c n IH]; intros acc; [now contradiction Hne|].
  simpl in Hw. apply andb_true_iff in Hw as [Hc Hw].
  cbn [app match_name]. rewrite Hc. destruct n as [|c' n].
  - cbn [app]. now rewrite (match_name_stops _ _ Hr), He.
  - rewrite IH by (discriminate || assumption). now rewrite <- app_assoc.
Qed.

Lemma equals_starts_nonword (ws r : jsstring) :
  forallb is_whitespace ws = true ->
  is_word_char (hd 0%N (ws ++ [61%N] ++ r)) = false.
Proof.
  destruct ws as [|c ws]; [reflexivity|]. simpl.
  intros H. apply andb_true_iff in H as [Hc _]. now apply whitespace_not_word.
Qed.

(** X13. When the expression is accepted, the two groups are the parts of
    the expression: a non-empty name of word characters at its start, an
    equals sign with optional white space on both sides, and a non-empty
    body without line terminator that runs to the end. *)
Theorem match_expression_sound (expression name body : jsstring) :
  match_expression expression = Some (name, body) ->
  exists ws1 ws2, expression_parts expression name ws1 ws2 body.
Proof.
  unfold match_expression. intros H.
  apply match_name_sound in H as (n & r & -> & -> & Hne & Hw & He).
  apply match_equals_sound in He as (ws1 & r' & -> & Hws1 & Hb).
  apply match_body_sound in Hb as (ws2 & -> & Hws2 & Hb).
  apply match_rest_Some in Hb as (_ & Hbne & Hl).
  exists ws1, ws2. unfold expression_parts. now repeat split.
Qed.

Lemma match_expression_sound_witness :
  exists ws1 ws2,
    expression_parts (str "total = price * qty") (str "total") ws1 ws2 (str "price * qty").
Proof.
  apply (match_expression_sound (str "total = price * qty")). reflexivity.
Defined.

(** X14. An expression made of a name, an equals sign and a body that
    does not begin with white space is accepted, with exactly that name
    and that body as its groups, whatever the white space around the
    equals sign. *)
Theorem match_expression_complete (expression name ws1 ws2 body : jsstring) :
  expression_parts expression name ws1 ws2 body ->
  is_whitespace (hd 0%N body) = false ->
  match_expression expression = Some (name, body).
Proof.
  intros (-> & Hne & Hw & Hws1 & Hws2 & Hbne & Hl) Hhd.
  unfold match_expression.
  apply (@match_name_complete [] name _ body Hne Hw);
    [now apply equals_starts_nonword|].
  apply match_equals_complete; [assumption|].
  apply match_body_complete; [assumption| |assumption].
  apply match_rest_Some. now repeat split.
Qed.

Lemma match_expression_complete_witness :
  match_expression (str "full_name   =first + last") = Some (str "full_name", str "first + last").
Proof.
  apply (@match_expression_complete _ (str "full_name") (str "   ") [] (str "first + last")).
  - unfold expression_parts. repeat split; try reflexivity; discriminate.
  - reflexivity.
Defined.

Lemma substitute_all_error (E : engine) (row : obj jsstring) (expr : jsstring) (e : error) :
  substitute_all E row expr = Throws e -> e = SyntaxError.
Proof.
  revert expr. induction row as [|[col val] row IH]; intros expr; [discriminate|].
  simpl. unfold substitute. destruct (RegExp_word_g E col).
  - apply IH.
  - now intros [= <-].
Qed.

Lemma map_result_Throws {A B} (f : A -> result B) (xs : list A) (e : error) :
  map_result f xs = Throws e -> exists x, In x xs /\ f x = Throws e.
Proof.
  induction xs as [|x xs IH]; intros H; [discriminate|].
  simpl in H. destruct (f x) as [y|e'] eqn:Ef.
  - destruct (map_result f xs) as [ys|e'']; [discriminate|].
    injection H as ->. destruct (IH eq_refl) as (z & Hz & Hfz).
    exists z. split; [now right|assumption].
  - injection H as ->. exists x. split; [now left|assumption].
Qed.

(** X15. [transform] fails with the invalid-expression error exactly
    when the expression is not of the shape name, equals sign, body; the
    expression is checked before any record is read, so the error is
    raised on the empty dataset as well. *)
Theorem transform_invalid_expression
        (E : engine) (data : list (obj jsstring)) (expression : jsstring) :
  transform E data expression = Throws InvalidExpression
  <-> ~ exists name ws1 ws2 body, expression_parts expression name ws1 ws2 body.
Proof.
  unfold transform. destruct (match_expression expression) as [[name body]|] eqn:Hm.
  - split.
    + intros H. apply map_result_Throws in H as (row & _ & H).
      unfold transform_row in H.
      destruct (substitute_all E row body) as [evalExpr|e] eqn:Hs; [discriminate|].
      apply substitute_all_error in Hs. subst e. discriminate.
    + intros H. exfalso. apply H. exists name.
      apply match_expression_sound in Hm as (ws1 & ws2 & Hm). now exists ws1, ws2, body.
  - split; [|reflexivity]. intros _ (name & ws1 & ws2 & body & Hparts).
    destruct Hparts as (-> & Hne & Hw & Hws1 & Hws2 & Hbne & Hl).
    assert (Hrest : match_rest body = Some body) by (apply match_rest_Some; now repeat split).
    destruct (match_body_total ws2 Hws2 Hrest) as [body' Hb].
    unfold match_expression in Hm.
    rewrite (@match_name_complete [] name _ body' Hne Hw) in Hm;
      [discriminate|now apply equals_starts_nonword|].
    now apply match_equals_complete.
Qed.

(** ** The scanner on a text in two parts *)

Section ScanParts.

Variable delimiter : jsstring.

Lemma scan_cons (char : char) (rest : jsstring) (st : scanner) :
  scan delimiter (char :: rest) st
  = if inQuotes st then
      if char_eqb char DQUOTE && is_char DQUOTE (hd_error rest) then
        match rest with
        | _ :: rest' => scan delimiter rest' (add_char DQUOTE st)
        | [] => st
        end
      else if char_eqb char DQUOTE then
        scan delimiter rest (set_inQuotes false st)
      else
        scan delimiter rest (add_char char st)
    else
      if char_eqb char DQUOTE then
        scan delimiter rest (set_inQuotes true st)
      else if is_delimiter char delimiter then
        scan delimiter rest (end_field st)
      else if char_eqb char LF || (char_eqb char CR && is_char LF (hd_error rest)) then
        if char_eqb char CR then
          match rest with
          | _ :: rest' => scan delimiter rest' (end_row st)
          | [] => st
          end
        else scan delimiter rest (end_row st)
      else if negb (char_eqb char CR) then
        scan delimiter rest (add_char char st)
      else
        scan delimiter rest st.
Proof. reflexivity. Qed.

Ltac scan_leaf st' skip :=
  exists st', skip; intros rest; rewrite scan_cons; cbn [hd_error is_char];
  repeat match goal with H : _ = _ |- _ => rewrite H; clear H end; reflexivity.

(** What the loop does at [c] depends on the next code unit only. *)
Lemma scan_two (c c' : char) (st : scanner) :
  exists st' (skip : bool), forall rest,
    scan delimiter (c :: c' :: rest) st
    = scan delimiter (if skip then rest else c' :: rest) st'.
Proof.
  destruct (inQuotes st) eqn:Hq.
  - destruct (char_eqb c DQUOTE) eqn:Hc.
    + destruct (char_eqb DQUOTE c') eqn:Hn.
      * scan_leaf (add_char DQUOTE st) true.
      * scan_leaf (set_inQuotes false st) false.
    + scan_leaf (add_char c st) false.
  - destruct (char_eqb c DQUOTE) eqn:Hc; [scan_leaf (set_inQuotes true st) false|].
    destruct (is_delimiter c delimiter) eqn:Hd; [scan_leaf (end_field st) false|].
    destruct (char_eqb c CR) eqn:Hr.
    + destruct (char_eqb c LF) eqn:Hl; [scan_leaf (end_row st) true|].
      destruct (char_eqb LF c') eqn:Hn.
      * scan_leaf (end_row st) true.
      * scan_leaf st false.
    + destruct (char_eqb c LF) eqn:Hl.
      * scan_leaf (end_row st) false.
      * scan_leaf (add_char c st) false.
Qed.

Hypothesis lf_plain : is_delimiter LF delimiter = false.

Lemma scan_last (c : char) (rest : jsstring) (st : scanner) :
  is_char DQUOTE (hd_error rest) = false ->
  scan delimiter (c :: rest) st = scan delimiter rest (scan delimiter [c] st).
Proof.
  intros Hrest. rewrite (scan_cons c rest), (scan_cons c []).
  cbn [hd_error is_char]. rewrite Hrest, !andb_false_r.
  destruct (inQuotes st) eqn:Hq; [destruct (char_eqb c DQUOTE); reflexivity|].
  destruct (char_eqb c DQUOTE); [reflexivity|].
  destruct (is_delimiter c delimiter); [reflexivity|].
  destruct (char_eqb c LF) eqn:Hl; cbn [orb].
  - destruct (char_eqb c CR) eqn:Hr; [|reflexivity].
    apply char_eqb_eq in Hl, Hr. subst c. discriminate Hr.
  - destruct (char_eqb c CR) eqn:Hr; cbn [andb negb]; [|reflexivity].
    destruct rest as [|t rest]; [reflexivity|]. cbn [hd_error is_char].
    destruct (char_eqb LF t) eqn:Ht; [|reflexivity].
    apply char_eqb_eq in Ht. subst t. cbn [scan].
    symmetry. now apply scan_line_feed.
Qed.

Lemma scan_app_bounded (n : nat) (text rest : jsstring) (st : scanner) :
  length text <= n -> is_char DQUOTE (hd_error rest) = false ->
  scan delimiter (text ++ rest) st = scan delimiter rest (scan delimiter text st).
Proof.
  revert text st. induction n as [|n IH]; intros text st Hlen Hrest.
  - destruct text; [reflexivity|simpl in Hlen; lia].
  - destruct text as [|c [|c' text]]; [reflexivity|now apply scan_last|].
    destruct (scan_two c c' st) as (st' & skip & Hstep).
    cbn [app]. rewrite !Hstep.
    destruct skip; [apply IH|apply (IH (c' :: text))]; simpl in *; (lia || assumption).
Qed.

(** Reading a text in two parts: the scanner goes on from the state the
    first part leaves, provided the second part does not start with a
    quote. *)
Lemma scan_app (text rest : jsstring) (st : scanner) :
  is_char DQUOTE (hd_error rest) = false ->
  scan delimiter (text ++ rest) st = scan delimiter rest (scan delimiter text st).
Proof. now apply (scan_app_bounded (n := length text)). Qed.

Lemma scan_prepend_rows (done : list (list jsstring)) (text : jsstring) (st : scanner) :
  scan delimiter text (prepend_rows done st)
  = prepend_rows done (scan delimiter text st).
Proof.
  remember (length text) as n eqn:Hn.
  assert (Hlen : length text <= n) by lia. clear Hn.
  revert text st Hlen. induction n as [|n IH]; intros text st Hlen.
  - destruct text; [reflexivity|simpl in Hlen; lia].
  - destruct text as [|c rest]; [reflexivity|].
    assert (Hrest : length rest <= n) by (simpl in Hlen; lia).
    assert (Htail : forall c' rest', rest = c' :: rest' -> length rest' <= n)
      by (intros c' rest' ->; simpl in Hrest; lia).
    assert (Hend : end_row (prepend_rows done st) = prepend_rows done (end_row st)).
    { unfold end_row, prepend_rows. simpl.
      destruct (not_blank (current st ++ [field st])); [|reflexivity].
      now rewrite app_assoc. }
    rewrite !scan_cons.
    change (inQuotes (prepend_rows done st)) with (inQuotes st).
    change (add_char DQUOTE (prepend_rows done st))
      with (prepend_rows done (add_char DQUOTE st)).
    change (add_char c (prepend_rows done st)) with (prepend_rows done (add_char c st)).
    change (set_inQuotes false (prepend_rows done st))
      with (prepend_rows done (set_inQuotes false st)).
    change (set_inQuotes true (prepend_rows done st))
      with (prepend_rows done (set_inQuotes true st)).
    change (end_field (prepend_rows done st)) with (prepend_rows done (end_field st)).
    rewrite Hend.
    destruct (inQuotes st).
    + destruct (char_eqb c DQUOTE && is_char DQUOTE (hd_error rest)).
      * destruct rest as [|c' rest']; [reflexivity|]. apply IH. now apply (Htail c').
      * destruct (char_eqb c DQUOTE); now apply IH.
    + destruct (char_eqb c DQUOTE); [now apply IH|].
      destruct (is_delimiter c delimiter); [now apply IH|].
      destruct (char_eqb c LF || char_eqb c CR && is_char LF (hd_error rest)).
      * destruct (char_eqb c CR); [|now apply IH].
        destruct rest as [|c' rest']; [reflexivity|]. apply IH. now apply (Htail c').
      * destruct (negb (char_eqb c CR)); now apply IH.
Qed.

Lemma scan_crlf (rest : jsstring) (st : scanner) :
  inQuotes st = false -> is_delimiter CR delimiter = false ->
  scan delimiter (CR :: LF :: rest) st = scan delimiter rest (end_row st).
Proof. intros Hq Hd. rewrite scan_cons, Hq, Hd. reflexivity. Qed.

Lemma tokenize_after_row (text : jsstring) (st : scanner) :
  inQuotes st = false ->
  rows (end_row (scan delimiter text (end_row st)))
  = rows (end_row st) ++ tokenize text delimiter.
Proof.
  intros Hq.
  assert (H : end_row st = prepend_rows (rows (end_row st)) scan_init).
  { unfold end_row, prepend_rows. simpl. now rewrite Hq, app_nil_r. }
  rewrite H at 1. rewrite scan_prepend_rows. unfold tokenize.
  generalize (scan delimiter text scan_init). intros s.
  unfold end_row at 1 3. unfold prepend_rows. simpl.
  destruct (not_blank (current s ++ [field s])); [now rewrite app_assoc|reflexivity].
Qed.

Lemma tokenize_app_lf (t1 t2 : jsstring) :
  inQuotes (scan delimiter t1 scan_init) = false ->
  tokenize (t1 ++ [LF] ++ t2) delimiter
  = tokenize t1 delimiter ++ tokenize t2 delimiter.
Proof.
  intros Hq. unfold tokenize at 1.
  rewrite scan_app by reflexivity. cbn [app].
  rewrite scan_line_feed by assumption.
  now rewrite tokenize_after_row.
Qed.

Lemma tokenize_app_crlf (t1 t2 : jsstring) :
  is_delimiter CR delimiter = false ->
  inQuotes (scan delimiter t1 scan_init) = false ->
  tokenize (t1 ++ [CR; LF] ++ t2) delimiter
  = tokenize t1 delimiter ++ tokenize t2 delimiter.
Proof.
  intros Hcr Hq. unfold tokenize at 1.
  rewrite scan_app by reflexivity. cbn [app].
  rewrite scan_crlf by assumption.
  now rewrite tokenize_after_row.
Qed.

End ScanParts.

(** X16. A line end outside quotes cuts the text in two: the rows of
    [t1], a line feed or a carriage return and a line feed, and [t2] are
    the rows of [t1] followed by those of [t2], so that a final line end
    adds nothing and lines appended to a text with a header row give
    records appended to its records. *)
Theorem tokenize_concat (t1 t2 delimiter : jsstring) :
  is_delimiter LF delimiter = false -> is_delimiter CR delimiter = false ->
  inQuotes (scan delimiter t1 scan_init) = false ->
  tokenize (t1 ++ [LF] ++ t2) delimiter = tokenize t1 delimiter ++ tokenize t2 delimiter
  /\ tokenize (t1 ++ [CR; LF] ++ t2) delimiter
     = tokenize t1 delimiter ++ tokenize t2 delimiter
  /\ tokenize (t1 ++ [LF]) delimiter = tokenize t1 delimiter
  /\ (tokenize t1 delimiter <> [] ->
      parseCSV (t1 ++ [LF] ++ t2) delimiter
      = parseCSV t1 delimiter
        ++ map (toRecord (hd [] (tokenize t1 delimiter))) (tokenize t2 delimiter)).
Proof.
  intros Hlf Hcr Hq.
  pose proof (@tokenize_app_lf delimiter Hlf t1 t2 Hq) as H.
  split; [exact H|]. split; [now apply tokenize_app_crlf|]. split.
  - pose proof (@tokenize_app_lf delimiter Hlf t1 [] Hq) as H0.
    cbn [app] in H0. rewrite H0. apply app_nil_r.
  - intros Hne. unfold parseCSV. rewrite H.
    destruct (tokenize t1 delimiter) as [|headers rows1]; [now contradiction Hne|].
    simpl. apply map_app.
Qed.

Lemma tokenize_concat_witness :
  tokenize (str "a,b" ++ [LF] ++ str "1,2") (str ",")
  = tokenize (str "a,b") (str ",") ++ tokenize (str "1,2") (str ",")
  /\ tokenize (str "a,b" ++ [CR; LF] ++ str "1,2") (str ",")
     = tokenize (str "a,b") (str ",") ++ tokenize (str "1,2") (str ",")
  /\ tokenize (str "a,b" ++ [LF]) (str ",") = tokenize (str "a,b") (str ",")
  /\ (tokenize (str "a,b") (str ",") <> [] ->
      parseCSV (str "a,b" ++ [LF] ++ str "1,2") (str ",")
      = parseCSV (str "a,b") (str ",")
        ++ map (toRecord (hd [] (tokenize (str "a,b") (str ","))))
               (tokenize (str "1,2") (str ","))).
Proof.
  apply (tokenize_concat (str "a,b") (str "1,2") (str ",")); reflexivity.
Defined.

(** ** validate *)















(** X17. The check of the type [email] accepts exactly the texts made of
    a local part, an at sign, and a domain with a dot inside it, all
    three pieces non-empty and free of white space and of further at
    signs. *)
Theorem match_email_spec (val : jsstring) :
  match_email val = true
  <-> exists a b c,
        val = a ++ [64%N] ++ b ++ [46%N] ++ c
        /\ a <> [] /\ b <> [] /\ c <> []
        /\ forallb email_char a = true /\ forallb email_char b = true
        /\ forallb email_char c = true.
Proof.
  assert (Hdomain : forall r read,
             match_domain read r = true
             <-> exists b c, r = b ++ [46%N] ++ c /\ (read = true \/ b <> [])
                             /\ c <> [] /\ forallb email_char b = true
                             /\ forallb email_char c = true).
  { induction r as [|x r IH]; intros read.
    - simpl. split; [discriminate|]. intros (b & c & H & _). now destruct b.
    - cbn [match_domain]. rewrite orb_true_iff, !andb_true_iff, IH. split.
      + intros [[Hx (b & c & -> & _ & Hc & Hb & Hcs)]|[[Hread Hx] Hend]].
        * exists (x :: b), c. simpl. rewrite Hx, Hb.
          repeat split; try assumption. right. discriminate.
        * apply char_eqb_eq in Hx. subst x. unfold match_domain_end in Hend.
          apply andb_true_iff in Hend as [Hne Hend].
          exists [], r. repeat split; try assumption; [now left|].
          intros ->. discriminate Hne.
      + intros (b & c & Hr & Hb0 & Hc & Hb & Hcs). destruct b as [|y b].
        * right. injection Hr as -> ->. destruct Hb0 as [->|Hb0]; [|now contradiction Hb0].
          split; [split; [reflexivity|apply char_eqb_refl]|]. unfold match_domain_end.
          rewrite Hcs. now destruct c.
        * left. injection Hr as -> ->. simpl in Hb.
          apply andb_true_iff in Hb as [Hy Hb]. split; [assumption|].
          exists b, c. repeat split; try assumption. now left. }
  assert (Hlocal : forall r read,
             match_local read r = true
             <-> exists a rest, r = a ++ [64%N] ++ rest /\ (read = true \/ a <> [])
                                /\ forallb email_char a = true
                                /\ match_domain false rest = true).
  { induction r as [|x r IH]; intros read.
    - simpl. split; [discriminate|]. intros (a & rest & H & _). now destruct a.
    - cbn [match_local]. rewrite orb_true_iff, !andb_true_iff, IH. split.
      + intros [[Hx (a & rest & -> & _ & Ha & Hd)]|[[Hread Hx] Hd]].
        * exists (x :: a), rest. simpl. rewrite Hx, Ha.
          repeat split; try assumption. right. discriminate.
        * apply char_eqb_eq in Hx. subst x. exists [], r.
          repeat split; try assumption. now left.
      + intros (a & rest & Hr & Ha0 & Ha & Hd). destruct a as [|y a].
        * right. injection Hr as -> ->. destruct Ha0 as [->|Ha0]; [|now contradiction Ha0].
          split; [split; [reflexivity|apply char_eqb_refl]|assumption].
        * left. injection Hr as -> ->. simpl in Ha.
          apply andb_true_iff in Ha as [Hy Ha]. split; [assumption|].
          exists a, rest. repeat split; try assumption. now left. }
  unfold match_email. rewrite Hlocal. split.
  - intros (a & rest & -> & [Hf|Ha0] & Ha & Hd); [discriminate Hf|].
    apply Hdomain in Hd as (b & c & -> & [Hf|Hb0] & Hc & Hb & Hcs); [discriminate Hf|].
    exists a, b, c. now repeat split.
  - intros (a & b & c & -> & Ha0 & Hb0 & Hc0 & Ha & Hb & Hc).
    exists a, (b ++ [46%N] ++ c). repeat split; try assumption; [now right|].
    apply Hdomain. exists b, c. repeat split; try assumption. now right.
Qed.






(** ** Writing and reading records of different shapes *)







(** ** sort *)

Lemma num_ltb_asym (a b : number) : num_ltb a b = true -> num_ltb b a = false.
Proof.
  destruct a as [|[|]|n1 d1], b as [|[|]|n2 d2]; simpl; try discriminate; try reflexivity.
  rewrite Z.ltb_lt, Z.ltb_ge. lia.
Qed.

Lemma num_geb_trans (a b c : number) :
  isNaN b = false ->
  num_ltb a b = false -> num_ltb b c = false -> num_ltb a c = false.
Proof.
  destruct a as [|[|]|n1 d1], b as [|[|]|n2 d2], c as [|[|]|n3 d3]; simpl;
    try discriminate; try reflexivity.
  rewrite !Z.ltb_ge. intros _ H1 H2.
  apply (Z.mul_le_mono_pos_r _ _ (Zpos d2)); [lia|]. nia.
Qed.

Lemma num_eqb_class (x y z : number) :
  num_eqb x z = true -> num_eqb y z = true -> num_ltb x y = false.
Proof.
  destruct x as [|[|]|n1 d1], y as [|[|]|n2 d2], z as [|[|]|n3 d3]; simpl;
    try discriminate; try reflexivity.
  rewrite !Z.eqb_eq, Z.ltb_ge. intros H1 H2.
  apply (Z.mul_le_mono_pos_r _ _ (Zpos d3)); [lia|]. nia.
Qed.

Section InsertionSort.

Variable A : Type.
Variable comparefn : A -> A -> comparison.

Lemma sorted_insert_Permutation (x : A) (xs : list A) :
  Permutation (x :: xs) (sorted_insert comparefn x xs).
Proof.
  induction xs as [|y xs IH]; [reflexivity|].
  simpl. destruct (comparefn x y); try reflexivity.
  rewrite perm_swap. now constructor.
Qed.

Lemma Array_sort_Permutation (xs : list A) :
  Permutation xs (Array_sort comparefn xs).
Proof.
  induction xs as [|x xs IH]; [constructor|].
  simpl. rewrite <- sorted_insert_Permutation. now constructor.
Qed.

(** The comparator is consistent on the elements that satisfy [P]. *)
Variable P : A -> Prop.
Hypothesis comparefn_total :
  forall x y, P x -> P y -> comparefn x y = Gt -> comparefn y x <> Gt.
Hypothesis comparefn_trans :
  forall x y z, P x -> P y -> P z ->
                comparefn x y <> Gt -> comparefn y z <> Gt -> comparefn x z <> Gt.

Lemma sorted_insert_sorted (x : A) (xs : list A) :
  P x -> Forall P xs ->
  StronglySorted (fun a b => comparefn a b <> Gt) xs ->
  StronglySorted (fun a b => comparefn a b <> Gt) (sorted_insert comparefn x xs).
Proof.
  intros Hx HP Hs. induction Hs as [|y xs Hs IH Hy].
  - repeat constructor.
  - inversion HP as [|? ? Py HP']. subst. simpl.
    destruct (comparefn x y) eqn:E.
    + constructor; [now constructor|]. constructor; [congruence|].
      rewrite Forall_forall in *. intros z Hz.
      apply (comparefn_trans Hx Py (HP' z Hz)); [congruence|now apply Hy].
    + constructor; [now constructor|]. constructor; [congruence|].
      rewrite Forall_forall in *. intros z Hz.
      apply (comparefn_trans Hx Py (HP' z Hz)); [congruence|now apply Hy].
    + constructor; [now apply IH|].
      apply (Permutation_Forall (sorted_insert_Permutation x xs)).
      constructor; [now apply comparefn_total|assumption].
Qed.

Lemma Array_sort_sorted (xs : list A) :
  Forall P xs ->
  StronglySorted (fun a b => comparefn a b <> Gt) (Array_sort comparefn xs).
Proof.
  induction xs as [|x xs IH]; intros HP; [constructor|].
  inversion HP as [|? ? Hx HP']. subst. simpl.
  apply sorted_insert_sorted; [assumption| |now apply IH].
  apply (Permutation_Forall (Array_sort_Permutation xs) HP').
Qed.

(** Elements of one class, none of which comes after another. *)
Variable same : A -> bool.
Hypothesis same_not_after :
  forall x y, P x -> P y -> same x = true -> same y = true -> comparefn x y <> Gt.

Lemma sorted_insert_stable (x : A) (xs : list A) :
  P x -> Forall P xs ->
  List.filter same (sorted_insert comparefn x xs) = List.filter same (x :: xs).
Proof.
  intros Hx HP. induction xs as [|y xs IH]; [reflexivity|].
  inversion HP as [|? ? Py HP']. subst.
  cbn [sorted_insert]. destruct (comparefn x y) eqn:E; try reflexivity.
  cbn [List.filter]. rewrite (IH HP'). cbn [List.filter].
  destruct (same x) eqn:Sx, (same y) eqn:Sy; try reflexivity.
  now contradiction (same_not_after Hx Py Sx Sy).
Qed.

Lemma Array_sort_stable (xs : list A) :
  Forall P xs -> List.filter same (Array_sort comparefn xs) = List.filter same xs.
Proof.
  induction xs as [|x xs IH]; intros HP; [reflexivity|].
  inversion HP as [|? ? Hx HP']. subst. simpl Array_sort.
  rewrite sorted_insert_stable;
    [|assumption|apply (Permutation_Forall (Array_sort_Permutation xs) HP')].
  cbn [List.filter]. now rewrite (IH HP').
Qed.

End InsertionSort.

Lemma compare_rows_numeric (localeCompare : jsstring -> jsstring -> comparison)
      (column : jsstring) (descending : bool) (a b : obj jsstring) :
  isNaN (parseFloat_opt (obj_get a column)) = false ->
  isNaN (parseFloat_opt (obj_get b column)) = false ->
  compare_rows localeCompare column descending a b <> Gt
  <-> (if descending
       then num_ltb (parseFloat_opt (obj_get a column)) (parseFloat_opt (obj_get b column))
       else num_ltb (parseFloat_opt (obj_get b column)) (parseFloat_opt (obj_get a column)))
      = false.
Proof.
  intros Ha Hb. unfold compare_rows. cbv zeta. rewrite Ha, Hb. cbn [negb andb].
  unfold sub_sign.
  destruct (num_ltb (parseFloat_opt (obj_get a column))
                    (parseFloat_opt (obj_get b column))) eqn:Hab.
  - rewrite (num_ltb_asym _ _ Hab). destruct descending; simpl; split; congruence.
  - destruct (num_ltb (parseFloat_opt (obj_get b column))
                      (parseFloat_opt (obj_get a column)));
      destruct descending; simpl; split; congruence.
Qed.

(** X22. On a column in which every record holds a value that reads as a
    number, [sort] returns the records of the dataset, each once, in
    ascending order of the numbers read (descending when asked), and
    records with equal numbers keep the order they had in the dataset, in
    both directions. *)
Theorem sort_numeric
        (localeCompare : jsstring -> jsstring -> comparison)
        (data : list (obj jsstring)) (column : jsstring) (descending : bool) :
  (forall r, In r data -> isNaN (parseFloat_opt (obj_get r column)) = false) ->
  let key r := parseFloat_opt (obj_get r column) in
  let out := sort localeCompare data column descending in
  Permutation data out
  /\ StronglySorted
       (fun a b => (if descending then num_ltb (key a) (key b)
                    else num_ltb (key b) (key a)) = false) out
  /\ forall r0, List.filter (fun r => num_eqb (key r) (key r0)) out
                = List.filter (fun r => num_eqb (key r) (key r0)) data.
Proof.
  intros Hnum key out.
  set (P := fun r : obj jsstring => isNaN (key r) = false).
  assert (HP : Forall P data) by (apply Forall_forall; exact Hnum).
  assert (Hle : forall a b, P a -> P b ->
              (compare_rows localeCompare column descending a b <> Gt
               <-> (if descending then num_ltb (key a) (key b)
                    else num_ltb (key b) (key a)) = false))
    by (intros a b; apply compare_rows_numeric).
  split; [apply Array_sort_Permutation|]. split.
  - assert (Hs : StronglySorted
                   (fun a b => compare_rows localeCompare column descending a b <> Gt) out).
    { apply (@Array_sort_sorted _ (compare_rows localeCompare column descending) P);
        [| |assumption].
      - intros x y Px Py Hgt. apply (Hle y x Py Px).
        assert (Hxy : (if descending then num_ltb (key x) (key y)
                       else num_ltb (key y) (key x)) = true).
        { destruct (if descending then num_ltb (key x) (key y)
                    else num_ltb (key y) (key x)) eqn:E; [reflexivity|].
          exfalso. exact (proj2 (Hle x y Px Py) E Hgt). }
        destruct descending; now apply num_ltb_asym.
      - intros x y z Px Py Pz Hxy Hyz.
        apply (proj1 (Hle x y Px Py)) in Hxy. apply (proj1 (Hle y z Py Pz)) in Hyz.
        apply (Hle x z Px Pz). destruct descending.
        + now apply (num_geb_trans _ (key y)).
        + now apply (num_geb_trans _ (key y)). }
    assert (Hout : Forall P out)
      by (apply (Permutation_Forall (Array_sort_Permutation _ data) HP)).
    clear HP Hnum. induction Hs as [|a l Hs IH Ha]; [constructor|].
    inversion Hout as [|? ? Pa Hl]. subst. constructor; [now apply IH|].
    rewrite Forall_forall in *. intros b Hb. apply (Hle a b Pa (Hl b Hb)).
    now apply Ha.
  - intros r0.
    apply (@Array_sort_stable _ (compare_rows localeCompare column descending) P);
      [|assumption].
    intros x y Px Py Sx Sy. apply (Hle x y Px Py).
    destruct descending; apply (@num_eqb_class _ _ (key r0)); assumption.
Qed.

Lemma sort_numeric_witness :
  Permutation [[(str "p", str "10")]; [(str "p", str "9.5")]; [(str "p", str "1e1")]]
              (sort (fun _ _ => Eq)
                    [[(str "p", str "10")]; [(str "p", str "9.5")]; [(str "p", str "1e1")]]
                    (str "p") true)
  /\ StronglySorted
       (fun a b => num_ltb (parseFloat_opt (obj_get a (str "p")))
                           (parseFloat_opt (obj_get b (str "p"))) = false)
       (sort (fun _ _ => Eq)
             [[(str "p", str "10")]; [(str "p", str "9.5")]; [(str "p", str "1e1")]]
             (str "p") true)
  /\ forall r0,
      List.filter (fun r => num_eqb (parseFloat_opt (obj_get r (str "p")))
                                    (parseFloat_opt (obj_get r0 (str "p"))))
                  (sort (fun _ _ => Eq)
                        [[(str "p", str "10")]; [(str "p", str "9.5")]; [(str "p", str "1e1")]]
                        (str "p") true)
      = List.filter (fun r => num_eqb (parseFloat_opt (obj_get r (str "p")))
                                      (parseFloat_opt (obj_get r0 (str "p"))))
                    [[(str "p", str "10")]; [(str "p", str "9.5")]; [(str "p", str "1e1")]].
Proof.
  apply (@sort_numeric (fun _ _ => Eq)
           [[(str "p", str "10")]; [(str "p", str "9.5")]; [(str "p", str "1e1")]]
           (str "p") true).
  intros r [<-|[<-|[<-|[]]]]; reflexivity.
Defined.

(** ** stats *)

Lemma fold_obj_set_get {V} (f : jsstring -> V) (hs : list jsstring) (acc : obj V)
      (k : jsstring) :
  obj_get (fold_left (fun o h => obj_set o h (f h)) hs acc) k
  = if existsb (str_eqb k) hs then Some (f k) else obj_get acc k.
Proof.
  revert acc. induction hs as [|h hs IH]; intros acc; [reflexivity|].
  simpl. rewrite IH, obj_get_set.
  destruct (existsb (str_eqb k) hs); [now rewrite orb_true_r|].
  rewrite orb_false_r. destruct (str_eqb k h) eqn:E; [|reflexivity].
  apply str_eqb_eq in E. now subst.
Qed.

Lemma stats_get (data : list (obj jsstring)) (col : jsstring) :
  obj_get (columnStats (stats data)) col
  = if existsb (str_eqb col) (columns data) then Some (stats_of_column data col) else None.
Proof.
  destruct data as [|first rest]; [reflexivity|].
  exact (fold_obj_set_get (stats_of_column (first :: rest)) (obj_keys first) [] col).
Qed.


Lemma filled_values_length (data : list (obj jsstring)) (col : jsstring) :
  length (List.filter is_filled (map (fun r => obj_get r col) data))
  = length (List.filter (fun r => is_filled (obj_get r col)) data).
Proof.
  induction data as [|r data IH]; [reflexivity|].
  simpl. destruct (is_filled (obj_get r col)); simpl; now rewrite IH.
Qed.



Lemma numbers_of_In (data : list (obj jsstring)) (col : jsstring) (x : number) :
  In x (numbers_of (List.filter is_filled (map (fun r => obj_get r col) data)))
  <-> isNaN x = false
      /\ exists r, In r data /\ is_filled (obj_get r col) = true
                   /\ parseFloat_opt (obj_get r col) = x.
Proof.
  unfold numbers_of. rewrite filter_In, in_map_iff. split.
  - intros [(v & Hv & Hin) Hx]. apply filter_In in Hin as [Hin Hf].
    apply in_map_iff in Hin as (r & <- & Hr).
    split; [now apply negb_true_iff in Hx|]. now exists r.
  - intros [Hx (r & Hr & Hf & Hv)]. split; [|now rewrite Hx].
    exists (obj_get r col). split; [assumption|].
    apply filter_In. split; [|assumption]. apply in_map_iff. now exists r.
Qed.

Lemma numbers_no_NaN (vs : list (option jsstring)) :
  existsb isNaN (numbers_of vs) = false.
Proof.
  destruct (existsb isNaN (numbers_of vs)) eqn:E; [|reflexivity].
  apply existsb_exists in E as (x & Hin & Hx).
  apply filter_In in Hin as [_ H]. rewrite Hx in H. discriminate H.
Qed.

Section Best.

Variable lt : number -> number -> bool.
Hypothesis lt_asym : forall a b, lt a b = true -> lt b a = false.
Hypothesis lt_trans :
  forall a b c, isNaN b = false -> lt a b = false -> lt b c = false -> lt a c = false.

Lemma lt_irrefl (a : number) : lt a a = false.
Proof.
  destruct (lt a a) eqn:E; [|reflexivity]. pose proof (lt_asym E). congruence.
Qed.

(** The fold of [Math.min] and [Math.max]: the result is the start value
    or an element, and nothing comes before it. *)
Lemma fold_best (xs : list number) (m : number) :
  Forall (fun x => isNaN x = false) xs -> isNaN m = false ->
  isNaN (fold_left (fun m x => if lt x m then x else m) xs m) = false
  /\ (fold_left (fun m x => if lt x m then x else m) xs m = m
      \/ In (fold_left (fun m x => if lt x m then x else m) xs m) xs)
  /\ lt m (fold_left (fun m x => if lt x m then x else m) xs m) = false
  /\ forall x, In x xs ->
               lt x (fold_left (fun m x => if lt x m then x else m) xs m) = false.
Proof.
  intros Hxs. revert m. induction Hxs as [|x xs Hx Hxs IH]; intros m Hm.
  - simpl. split; [assumption|]. split; [now left|]. split; [apply lt_irrefl|intros x []].
  - cbn [fold_left].
    assert (Hm' : isNaN (if lt x m then x else m) = false) by (now destruct (lt x m)).
    assert (Hmm : lt m (if lt x m then x else m) = false).
    { destruct (lt x m) eqn:E; [now apply lt_asym|apply lt_irrefl]. }
    assert (Hxm : lt x (if lt x m then x else m) = false).
    { destruct (lt x m) eqn:E; [apply lt_irrefl|assumption]. }
    destruct (IH _ Hm') as (Hr & Hin & Hlt & Hall).
    split; [assumption|]. split; [|split].
    + destruct Hin as [Hin|Hin]; [|right; now right].
      rewrite Hin. destruct (lt x m); [right; now left|now left].
    + exact (lt_trans Hm' Hmm Hlt).
    + intros y [<-|Hy]; [exact (lt_trans Hm' Hxm Hlt)|now apply Hall].
Qed.

End Best.

Lemma Math_min_spec (xs : list number) :
  existsb isNaN xs = false -> xs <> [] ->
  In (Math_min xs) xs /\ forall x, In x xs -> num_ltb x (Math_min xs) = false.
Proof.
  intros Hnan Hne. unfold Math_min. rewrite Hnan.
  assert (Hxs : Forall (fun x => isNaN x = false) xs).
  { apply Forall_forall. intros x Hx. destruct (isNaN x) eqn:E; [|reflexivity].
    assert (existsb isNaN xs = true) by (apply existsb_exists; now exists x). congruence. }
  destruct (@fold_best num_ltb num_ltb_asym num_geb_trans xs (Infinity false) Hxs eq_refl)
    as (_ & Hin & _ & Hall).
  split; [|exact Hall]. destruct Hin as [Hin|Hin]; [|exact Hin].
  rewrite Hin in *. destruct xs as [|x xs]; [now contradiction Hne|].
  inversion Hxs as [|? ? Hx _]. subst. specialize (Hall x (or_introl eq_refl)).
  left. destruct x as [|[|]|n d]; simpl in *; congruence.
Qed.

Lemma Math_max_spec (xs : list number) :
  existsb isNaN xs = false -> xs <> [] ->
  In (Math_max xs) xs /\ forall x, In x xs -> num_ltb (Math_max xs) x = false.
Proof.
  intros Hnan Hne. unfold Math_max. rewrite Hnan.
  assert (Hxs : Forall (fun x => isNaN x = false) xs).
  { apply Forall_forall. intros x Hx. destruct (isNaN x) eqn:E; [|reflexivity].
    assert (existsb isNaN xs = true) by (apply existsb_exists; now exists x). congruence. }
  destruct (@fold_best (fun a b => num_ltb b a)
              (fun a b => num_ltb_asym b a)
              (fun a b c Hb Hab Hbc => @num_geb_trans c b a Hb Hbc Hab)
              xs (Infinity true) Hxs eq_refl)
    as (_ & Hin & _ & Hall).
  split; [|exact Hall]. destruct Hin as [Hin|Hin]; [|exact Hin].
  rewrite Hin in *. destruct xs as [|x xs]; [now contradiction Hne|].
  inversion Hxs as [|? ? Hx _]. subst. specialize (Hall x (or_introl eq_refl)).
  left. destruct x as [|[|]|n d]; simpl in *; congruence.
Qed.

(** X24. When the entry of a column has a minimum, it has a maximum too,
    both are numbers read from non-empty values of the column, and every
    number read from a non-empty value of the column lies between them. *)
Theorem stats_min_max
        (data : list (obj jsstring)) (col : jsstring) (s : column_stats) (m : number) :
  obj_get (columnStats (stats data)) col = Some s ->
  stat_min s = Some m ->
  exists M,
    stat_max s = Some M
    /\ (exists r, In r data /\ is_filled (obj_get r col) = true
                  /\ parseFloat_opt (obj_get r col) = m)
    /\ (exists r, In r data /\ is_filled (obj_get r col) = true
                  /\ parseFloat_opt (obj_get r col) = M)
    /\ forall r, In r data -> is_filled (obj_get r col) = true ->
                 isNaN (parseFloat_opt (obj_get r col)) = false ->
                 num_ltb (parseFloat_opt (obj_get r col)) m = false
                 /\ num_ltb M (parseFloat_opt (obj_get r col)) = false.
Proof.
  intros Hget Hmin. rewrite stats_get in Hget.
  destruct (existsb (str_eqb col) (columns data)); [|discriminate Hget].
  injection Hget as <-. unfold stats_of_column in *. cbn [stat_min stat_max] in *.
  set (numbers := numbers_of (List.filter is_filled (map (fun r => obj_get r col) data)))
    in *.
  destruct (num_gtb (num_of_nat (length numbers))
                    (num_mul (num_of_nat
                                (length (List.filter is_filled
                                           (map (fun r => obj_get r col) data))))
                             point_eight)
            && (0 <? length numbers)) eqn:Hhas; [|discriminate Hmin].
  injection Hmin as <-.
  assert (Hne : numbers <> []).
  { apply andb_true_iff in Hhas as [_ Hlen]. apply Nat.ltb_lt in Hlen.
    intros E. rewrite E in Hlen. simpl in Hlen. lia. }
  destruct (@Math_min_spec numbers (numbers_no_NaN _) Hne) as [Hmin_in Hmin_le].
  destruct (@Math_max_spec numbers (numbers_no_NaN _) Hne) as [Hmax_in Hmax_le].
  exists (Math_max numbers). split; [reflexivity|].
  split; [exact (proj2 (proj1 (numbers_of_In data col _) Hmin_in))|].
  split; [exact (proj2 (proj1 (numbers_of_In data col _) Hmax_in))|].
  intros r Hr Hf Hx.
  assert (Hin : In (parseFloat_opt (obj_get r col)) numbers).
  { apply numbers_of_In. split; [assumption|]. now exists r. }
  split; [now apply Hmin_le|now apply Hmax_le].
Qed.

Lemma stats_min_max_witness :
  exists M,
    stat_max (stats_of_column [[(str "p", str "3")]; [(str "p", str "1.5")]; [(str "p", [])]]
                              (str "p")) = Some M
    /\ (exists r, In r [[(str "p", str "3")]; [(str "p", str "1.5")]; [(str "p", [])]]
                  /\ is_filled (obj_get r (str "p")) = true
                  /\ parseFloat_opt (obj_get r (str "p")) = Finite 3 2)
    /\ (exists r, In r [[(str "p", str "3")]; [(str "p", str "1.5")]; [(str "p", [])]]
                  /\ is_filled (obj_get r (str "p")) = true
                  /\ parseFloat_opt (obj_get r (str "p")) = M)
    /\ forall r, In r [[(str "p", str "3")]; [(str "p", str "1.5")]; [(str "p", [])]] ->
                 is_filled (obj_get r (str "p")) = true ->
                 isNaN (parseFloat_opt (obj_get r (str "p"))) = false ->
                 num_ltb (parseFloat_opt (obj_get r (str "p"))) (Finite 3 2) = false
                 /\ num_ltb M (parseFloat_opt (obj_get r (str "p"))) = false.
Proof.
  apply (@stats_min_max [[(str "p", str "3")]; [(str "p", str "1.5")]; [(str "p", [])]]
           (str "p")); reflexivity.
Defined.

Lemma scale_nonneg (a b e a' b' : Z) :
  (0 <= a)%Z -> (0 < b)%Z -> scale 2 a b e = (a', b') -> (0 <= a')%Z /\ (0 < b')%Z.
Proof.
  intros Ha Hb. unfold scale. destruct (0 <=? e)%Z eqn:He; intros [= <- <-].
  - split; [|assumption]. apply Z.mul_nonneg_nonneg; [assumption|].
    apply Z.pow_nonneg. lia.
  - split; [assumption|]. apply Z.mul_pos_pos; [assumption|].
    apply Z.pow_pos_nonneg; lia.
Qed.

Lemma round_half_even_nonneg (a b : Z) :
  (0 <= a)%Z -> (0 < b)%Z -> (0 <= round_half_even a b)%Z.
Proof.
  intros Ha Hb. unfold round_half_even.
  assert (0 <= a / b)%Z by (apply Z.div_pos; assumption).
  destruct (2 * (a mod b) ?= b)%Z; [destruct (Z.even (a / b))| |]; lia.
Qed.

Lemma round_double_nonneg (a b : Z) :
  (0 <= a)%Z -> (0 < b)%Z -> num_ltb (round_double false a b) (Finite 0 1) = false.
Proof.
  intros Ha Hb. unfold round_double.
  destruct (scale 2 a b (- (Z.log2 a - Z.log2 b))) as [a0 b0].
  match goal with
  | |- context [scale 2 a b (- ?u)] =>
      destruct (scale 2 a b (- u)) as [a1 b1] eqn:E1
  end.
  destruct (scale_nonneg _ Ha Hb E1) as [Ha1 Hb1].
  pose proof (round_half_even_nonneg Ha1 Hb1) as Hm.
  match goal with
  | |- context [scale 2 (round_half_even a1 b1) 1 ?u] =>
      destruct (scale 2 (round_half_even a1 b1) 1 u) as [n d] eqn:E2
  end.
  destruct (scale_nonneg _ Hm Z.lt_0_1 E2) as [Hn Hd].
  destruct (2 ^ 1024 * d <=? n)%Z; [reflexivity|].
  unfold mk_finite. destruct (Z.gcd n d =? 0)%Z eqn:Hg; [reflexivity|].
  cbn [num_ltb]. apply Z.ltb_ge. rewrite Z.mul_1_r, Z.mul_0_l.
  apply Z.div_pos; [assumption|].
  apply Z.eqb_neq in Hg. pose proof (Z.gcd_nonneg n d). lia.
Qed.

Lemma threshold_nonneg (n : nat) :
  num_ltb (num_mul (num_of_nat n) point_eight) (Finite 0 1) = false.
Proof.
  change point_eight with (Finite 3602879701896397 4503599627370496).
  unfold num_of_nat, num_mul, num_round.
  destruct (Z.of_nat n * 3602879701896397 =? 0)%Z eqn:E; [reflexivity|].
  replace (Z.of_nat n * 3602879701896397 <? 0)%Z with false
    by (symmetry; apply Z.ltb_ge; lia).
  apply round_double_nonneg; lia.
Qed.

Lemma numeric_has_numbers (k n : nat) :
  num_gtb (num_of_nat k) (num_mul (num_of_nat n) point_eight) = true -> 0 < k.
Proof.
  intros H. destruct k as [|k]; [|lia].
  unfold num_gtb in H. change (num_of_nat 0) with (Finite 0 1) in H.
  rewrite threshold_nonneg in H. discriminate H.
Qed.

(** X25. The type of a column is [number] or [string]; the entry has a
    minimum, a maximum and an average exactly when the type is [number];
    and a column in which no non-empty value reads as a number is of type
    [string]. *)
Theorem stats_type (data : list (obj jsstring)) (col : jsstring) (s : column_stats) :
  obj_get (columnStats (stats data)) col = Some s ->
  (stat_type s = str "number" \/ stat_type s = str "string")
  /\ (stat_type s = str "number" <-> stat_min s <> None)
  /\ (stat_min s <> None <-> stat_max s <> None)
  /\ (stat_min s <> None <-> stat_avg s <> None)
  /\ (stat_type s = str "number" ->
      exists r, In r data /\ is_filled (obj_get r col) = true
                /\ isNaN (parseFloat_opt (obj_get r col)) = false).
Proof.
  intros Hget. rewrite stats_get in Hget.
  destruct (existsb (str_eqb col) (columns data)); [|discriminate Hget].
  injection Hget as <-. unfold stats_of_column.
  cbn [stat_type stat_min stat_max stat_avg].
  set (numbers := numbers_of (List.filter is_filled (map (fun r => obj_get r col) data))).
  destruct (num_gtb (num_of_nat (length numbers))
                    (num_mul (num_of_nat
                                (length (List.filter is_filled
                                           (map (fun r => obj_get r col) data))))
                             point_eight)) eqn:Hnum.
  - pose proof (numeric_has_numbers _ _ Hnum) as Hlen.
    apply Nat.ltb_lt in Hlen as Hlt. rewrite Hlt. cbn [andb].
    split; [now left|]. split; [split; [discriminate|reflexivity]|].
    split; [split; discriminate|]. split; [split; discriminate|].
    intros _. destruct numbers as [|x xs] eqn:E; [simpl in Hlen; lia|].
    assert (Hin : In x numbers) by (rewrite E; now left).
    apply numbers_of_In in Hin as [Hx (r & Hr & Hf & Hv)].
    exists r. rewrite Hv. now repeat split.
  - cbn [andb]. split; [now right|].
    split; [split; [discriminate|intros H; now contradiction H]|].
    split; [tauto|]. split; [tauto|]. discriminate.
Qed.

Lemma stats_type_witness :
  (stat_type (stats_of_column [[(str "p", str "3")]; [(str "p", str "x")]] (str "p"))
   = str "number"
   \/ stat_type (stats_of_column [[(str "p", str "3")]; [(str "p", str "x")]] (str "p"))
      = str "string")
  /\ (stat_type (stats_of_column [[(str "p", str "3")]; [(str "p", str "x")]] (str "p"))
      = str "number"
      <-> stat_min (stats_of_column [[(str "p", str "3")]; [(str "p", str "x")]] (str "p"))
          <> None)
  /\ (stat_min (stats_of_column [[(str "p", str "3")]; [(str "p", str "x")]] (str "p"))
      <> None
      <-> stat_max (stats_of_column [[(str "p", str "3")]; [(str "p", str "x")]] (str "p"))
          <> None)
  /\ (stat_min (stats_of_column [[(str "p", str "3")]; [(str "p", str "x")]] (str "p"))
      <> None
      <-> stat_avg (stats_of_column [[(str "p", str "3")]; [(str "p", str "x")]] (str "p"))
          <> None)
  /\ (stat_type (stats_of_column [[(str "p", str "3")]; [(str "p", str "x")]] (str "p"))
      = str "number" ->
      exists r, In r [[(str "p", str "3")]; [(str "p", str "x")]]
                /\ is_filled (obj_get r (str "p")) = true
                /\ isNaN (parseFloat_opt (obj_get r (str "p"))) = false).
Proof.
  apply (@stats_type [[(str "p", str "3")]; [(str "p", str "x")]] (str "p")).
  reflexivity.
Defined.

(** *** The threshold of the numeric type *)

Lemma mk_finite_ltb (m d k : Z) :
  (0 < d)%Z -> num_ltb (mk_finite m d) (Finite k 1) = (m <? k * d)%Z.
Proof.
  intros Hd. unfold mk_finite.
  pose proof (Z.gcd_nonneg m d) as Hg0.
  destruct (Z.gcd m d =? 0)%Z eqn:Hg.
  - apply Z.eqb_eq in Hg. apply Z.gcd_eq_0_r in Hg. lia.
  - apply Z.eqb_neq in Hg.
    destruct (Z.gcd_divide_l m d) as [m' Hm]. destruct (Z.gcd_divide_r m d) as [d' Hd'].
    set (g := Z.gcd m d) in *.
    assert (Hgpos : (0 < g)%Z) by lia.
    assert (Hd'pos : (0 < d')%Z) by nia.
    cbn [num_ltb].
    rewrite Hm at 1. rewrite Hd' at 1. rewrite !Z.div_mul by lia.
    rewrite Z2Pos.id by assumption. rewrite Z.mul_1_r.
    rewrite Hm at 1. rewrite Hd' at 1.
    destruct (m' <? k * d')%Z eqn:E1, (m' * g <? k * (d' * g))%Z eqn:E2; try reflexivity.
    + apply Z.ltb_lt in E1. apply Z.ltb_ge in E2. nia.
    + apply Z.ltb_ge in E1. apply Z.ltb_lt in E2. nia.
Qed.

Lemma round_half_even_bounds (a b : Z) :
  (0 < b)%Z -> (a / b <= round_half_even a b <= a / b + 1)%Z.
Proof.
  intros Hb. unfold round_half_even.
  destruct (2 * (a mod b) ?= b)%Z; [destruct (Z.even (a / b))| |]; lia.
Qed.

(** The product [n * 0.8] is rounded, and [0.8] is not 4/5, but the
    comparison with an integer comes out as for the exact product. *)
Lemma round_double_threshold (n k : Z) :
  (0 < n < 2 ^ 32)%Z -> (0 <= k)%Z ->
  num_ltb (round_double false (n * 3602879701896397) 4503599627370496) (Finite k 1)
  = (4 * n <? 5 * k)%Z.
Proof.
  intros Hn Hk. unfold round_double.
  set (c := 3602879701896397%Z). set (b := 4503599627370496%Z).
  assert (Hc : (5 * c = 4 * b + 1)%Z) by reflexivity.
  assert (H32 : (2 ^ 32 = 4294967296)%Z) by reflexivity.
  assert (Ha : (0 < n * c < 2 ^ 84)%Z).
  { change (2 ^ 84)%Z with (2 ^ 32 * 4503599627370496)%Z. unfold c. lia. }
  assert (Hlog : (Z.log2 (n * c) < 84)%Z) by (apply Z.log2_lt_pow2; lia).
  assert (Hlogb : Z.log2 b = 52%Z) by reflexivity.
  destruct (scale 2 (n * c) b (- (Z.log2 (n * c) - Z.log2 b))) as [a0 b0].
  set (e := if (b0 <=? a0)%Z then (Z.log2 (n * c) - Z.log2 b)%Z
            else (Z.log2 (n * c) - Z.log2 b - 1)%Z).
  assert (He : (e <= 31)%Z) by (unfold e; destruct (b0 <=? a0)%Z; lia).
  set (ulp := Z.max (e - 52) (-1074)).
  assert (Hulp : (-1074 <= ulp <= -21)%Z) by lia.
  unfold scale.
  replace (0 <=? - ulp)%Z with true by (symmetry; apply Z.leb_le; lia).
  replace (0 <=? ulp)%Z with false by (symmetry; apply Z.leb_gt; lia).
  set (D := (2 ^ (- ulp))%Z).
  assert (HD : (8 <= D)%Z).
  { change 8%Z with (2 ^ 3)%Z. apply Z.pow_le_mono_r; lia. }
  set (m := round_half_even (n * c * D) b).
  pose proof (@round_half_even_bounds (n * c * D)%Z b ltac:(lia)) as Hm. fold m in Hm.
  assert (Hq : (b * (n * c * D / b) <= n * c * D < b * (n * c * D / b + 1))%Z).
  { pose proof (Z.mul_div_le (n * c * D) b ltac:(lia)).
    pose proof (Z.mul_succ_div_gt (n * c * D) b ltac:(lia)). lia. }
  set (q := (n * c * D / b)%Z) in *.
  rewrite Z.mul_1_l.
  replace (2 ^ 1024 * D <=? m)%Z with false.
  2:{ symmetry. apply Z.leb_gt.
      assert (H1 : (2 ^ 34 <= 2 ^ 1024)%Z) by (apply Z.pow_le_mono_r; lia).
      change (2 ^ 34)%Z with 17179869184%Z in H1.
      assert (q < 4294967296 * D)%Z by nia.
      nia. }
  rewrite mk_finite_ltb by lia.
  destruct (4 * n <? 5 * k)%Z eqn:E.
  - apply Z.ltb_lt in E. apply Z.ltb_lt.
    assert (q + 1 < k * D)%Z; [|lia].
    assert (b * (q + 1) < b * (k * D))%Z; [|nia].
    assert (5 * (n * c * D) + 5 * b < 5 * (b * (k * D)))%Z; [|lia].
    replace (5 * (n * c * D))%Z with (n * (4 * b + 1) * D)%Z by (rewrite <- Hc; ring).
    nia.
  - apply Z.ltb_ge in E. apply Z.ltb_ge.
    assert (k * D <= q)%Z; [|lia].
    apply Z.div_le_lower_bound; [lia|].
    assert (5 * (b * (k * D)) <= 5 * (n * c * D))%Z; [|lia].
    replace (5 * (n * c * D))%Z with (n * (4 * b + 1) * D)%Z by (rewrite <- Hc; ring).
    nia.
Qed.

Lemma threshold_exact (k n : nat) :
  (Z.of_nat n < 2 ^ 32)%Z ->
  num_gtb (num_of_nat k) (num_mul (num_of_nat n) point_eight) = (4 * n <? 5 * k)%nat.
Proof.
  intros Hn.
  change point_eight with (Finite 3602879701896397 4503599627370496).
  unfold num_gtb, num_of_nat, num_mul, num_round.
  change (Zpos 1 * Zpos 4503599627370496)%Z with 4503599627370496%Z.
  destruct n as [|n].
  - cbn [Z.of_nat Z.mul Z.eqb num_ltb].
    destruct k as [|k]; [reflexivity|].
    transitivity true; [apply Z.ltb_lt; lia|symmetry; apply Nat.ltb_lt; lia].
  - replace (Z.of_nat (S n) * 3602879701896397 =? 0)%Z with false
      by (symmetry; apply Z.eqb_neq; lia).
    replace (Z.of_nat (S n) * 3602879701896397 <? 0)%Z with false
      by (symmetry; apply Z.ltb_ge; lia).
    rewrite Z.abs_eq by lia.
    rewrite round_double_threshold by lia.
    destruct (4 * Z.of_nat (S n) <? 5 * Z.of_nat k)%Z eqn:E1,
             (4 * S n <? 5 * k)%nat eqn:E2; try reflexivity.
    + apply Z.ltb_lt in E1. apply Nat.ltb_ge in E2. lia.
    + apply Z.ltb_ge in E1. apply Nat.ltb_lt in E2. lia.
Qed.

Lemma numbers_of_length (data : list (obj jsstring)) (col : jsstring) :
  length (numbers_of (List.filter is_filled (map (fun r => obj_get r col) data)))
  = length (List.filter (fun r => is_filled (obj_get r col)
                                  && negb (isNaN (parseFloat_opt (obj_get r col)))) data).
Proof.
  unfold numbers_of. induction data as [|r data IH]; [reflexivity|].
  cbn [map List.filter]. destruct (is_filled (obj_get r col)); cbn [andb]; [|exact IH].
  cbn [map List.filter].
  destruct (negb (isNaN (parseFloat_opt (obj_get r col)))); cbn [length]; now rewrite IH.
Qed.

(** X26. A column is of type [number] exactly when more than four fifths
    of its non-empty values read as numbers: the product by the literal
    0.8 is rounded, but for a dataset of fewer than 2^32 records, the
    largest a JavaScript array can hold, the test comes out as the exact
    comparison [4 * nonEmpty < 5 * numbers]. *)
Theorem stats_numeric_threshold
        (data : list (obj jsstring)) (col : jsstring) (s : column_stats) :
  (Z.of_nat (length data) < 2 ^ 32)%Z ->
  obj_get (columnStats (stats data)) col = Some s ->
  (stat_type s = str "number"
   <-> 4 * stat_nonEmpty s
       < 5 * length (List.filter
                       (fun r => is_filled (obj_get r col)
                                 && negb (isNaN (parseFloat_opt (obj_get r col)))) data))
  /\ (stat_type s = str "string"
      <-> 5 * length (List.filter
                        (fun r => is_filled (obj_get r col)
                                  && negb (isNaN (parseFloat_opt (obj_get r col)))) data)
          <= 4 * stat_nonEmpty s).
Proof.
  intros Hlen Hget. rewrite stats_get in Hget.
  destruct (existsb (str_eqb col) (columns data)); [|discriminate Hget].
  injection Hget as <-. unfold stats_of_column. cbn [stat_type stat_nonEmpty].
  rewrite threshold_exact, numbers_of_length.
  - destruct (4 * length (List.filter is_filled (map (fun r => obj_get r col) data))
              <? 5 * length (List.filter
                               (fun r => is_filled (obj_get r col)
                                         && negb (isNaN (parseFloat_opt (obj_get r col))))
                               data)) eqn:E.
    + apply Nat.ltb_lt in E. split; split; try discriminate; try lia. reflexivity.
    + apply Nat.ltb_ge in E. split; split; try discriminate; try lia. reflexivity.
  - rewrite filled_values_length.
    pose proof (filter_length_le (fun r => is_filled (obj_get r col)) data). lia.
Qed.

Lemma stats_numeric_threshold_witness :
  (stat_type (stats_of_column
                [[(str "p", str "1")]; [(str "p", str "2")]; [(str "p", str "3")];
                 [(str "p", str "4")]; [(str "p", str "x")]] (str "p")) = str "number"
   <-> 4 * stat_nonEmpty (stats_of_column
                            [[(str "p", str "1")]; [(str "p", str "2")]; [(str "p", str "3")];
                             [(str "p", str "4")]; [(str "p", str "x")]] (str "p"))
       < 5 * length (List.filter
                       (fun r => is_filled (obj_get r (str "p"))
                                 && negb (isNaN (parseFloat_opt (obj_get r (str "p")))))
                       [[(str "p", str "1")]; [(str "p", str "2")]; [(str "p", str "3")];
                        [(str "p", str "4")]; [(str "p", str "x")]]))
  /\ (stat_type (stats_of_column
                   [[(str "p", str "1")]; [(str "p", str "2")]; [(str "p", str "3")];
                    [(str "p", str "4")]; [(str "p", str "x")]] (str "p")) = str "string"
      <-> 5 * length (List.filter
                        (fun r => is_filled (obj_get r (str "p"))
                                  && negb (isNaN (parseFloat_opt (obj_get r (str "p")))))
                        [[(str "p", str "1")]; [(str "p", str "2")]; [(str "p", str "3")];
                         [(str "p", str "4")]; [(str "p", str "x")]])
          <= 4 * stat_nonEmpty (stats_of_column
                                  [[(str "p", str "1")]; [(str "p", str "2")];
                                   [(str "p", str "3")]; [(str "p", str "4")];
                                   [(str "p", str "x")]] (str "p"))).
Proof.
  apply (@stats_numeric_threshold
           [[(str "p", str "1")]; [(str "p", str "2")]; [(str "p", str "3")];
            [(str "p", str "4")]; [(str "p", str "x")]] (str "p")).
  - reflexivity.
  - reflexivity.
Defined.
